(** * mypyrun: classification table, status policy, streaming filter,
    configuration sections, command line and [main] of [mypyrun.py],
    embedded in Rocq.

    Python values are modelled as follows.
    - [str] is [string]; the lines read from the subprocess are taken after
      [line.decode()], over the ASCII alphabet.
    - [frozenset]/[set] of codes is [gset string]; its truth value is
      non-emptiness.
    - [Optional[str]] is [option string]; its truth value is [Some s] with
      [s] non-empty.
    - [int] is [Z].
    - A compiled [re.Pattern] is the function its [search] method computes;
      the patterns of the table are parsed and matched by [Re].
    - [print], [cprint] and [report] append to an explicit output trace. *)

From Stdlib Require Import ZArith Ascii String.
From stdpp Require Import base decidable option list sorting gmap strings.

Local Open Scope Z_scope.

(** ** Python [str] operations used by the program *)

Module Str.

Definition dq : string := String (ascii_of_nat 34) EmptyString.
Definition nl : string := String (ascii_of_nat 10) EmptyString.
Definition bsl : string := String (ascii_of_nat 92) EmptyString.

(** Truth value of a [str]. *)
Definition truthy (s : string) : bool :=
  match s with EmptyString => false | String _ _ => true end.

(** [str.isspace] on one ASCII character: tab, line feed, vertical tab,
    form feed, carriage return, the four separators 28..31 and space. *)
Definition is_space (c : ascii) : bool :=
  let n := nat_of_ascii c in
  ((9 <=? n)%nat && (n <=? 13)%nat)
  || ((28 <=? n)%nat && (n <=? 32)%nat).

Fixpoint lstrip (s : string) : string :=
  match s with
  | EmptyString => EmptyString
  | String c s' => if is_space c then lstrip s' else s
  end.

(** [s.strip()] *)
Definition strip (s : string) : string :=
  String.rev (lstrip (String.rev (lstrip s))).

(** [s.startswith(p)] *)
Definition startswith (p s : string) : bool := String.prefix p s.

(** [s[n:]] for a non-negative literal [n]. *)
Fixpoint drop (n : nat) (s : string) : string :=
  match n, s with
  | O, _ => s
  | S _, EmptyString => EmptyString
  | S n', String _ s' => drop n' s'
  end.

(** [s.split(sep, maxsplit)] for a one-character separator: at most
    [maxsplit] cuts, from the left; the result is never empty. *)
Fixpoint split_go (sep : ascii) (maxsplit : nat) (cur : string) (s : string)
  : list string :=
  match s with
  | EmptyString => [String.rev cur]
  | String c s' =>
      match maxsplit with
      | O => [String.rev_app cur s]
      | S m =>
          if decide (c = sep)
          then String.rev cur :: split_go sep m EmptyString s'
          else split_go sep maxsplit (String c cur) s'
      end
  end.

Definition split (sep : ascii) (maxsplit : nat) (s : string) : list string :=
  split_go sep maxsplit EmptyString s.

(** [s.split(sep)] without a bound: a string has fewer separators than
    characters, so its length is bound enough. *)
Definition split_all (sep : ascii) (s : string) : list string :=
  split sep (String.length s) s.

(** [s.lower()] on ASCII. *)
Definition lower_ascii (c : ascii) : ascii :=
  let n := nat_of_ascii c in
  if ((65 <=? n)%nat && (n <=? 90)%nat)%bool then ascii_of_nat (n + 32) else c.

Fixpoint lower (s : string) : string :=
  match s with
  | EmptyString => EmptyString
  | String c s' => String (lower_ascii c) (lower s')
  end.

(** [sep.join(l)] *)
Fixpoint join (sep : string) (l : list string) : string :=
  match l with
  | [] => EmptyString
  | [x] => x
  | x :: l' => x +:+ sep +:+ join sep l'
  end.

End Str.

(** ** Regular expressions: the fragment of [re] the table is written in *)

Module Re.

Inductive regex : Type :=
| Eps
| Chr (c : ascii)
| Dot
| Cat (r1 r2 : regex)
| Star (r : regex).

(** A sequence under construction holds its items last-first. *)
Definition seq_of (items_rev : list regex) : regex :=
  fold_left (fun acc r => Cat r acc) items_rev Eps.

Definition is_alnum (c : ascii) : bool :=
  let n := nat_of_ascii c in
  ((48 <=? n)%nat && (n <=? 57)%nat)
  || ((65 <=? n)%nat && (n <=? 90)%nat)
  || ((97 <=? n)%nat && (n <=? 122)%nat).

Definition backslash : ascii := ascii_of_nat 92.

(** Operators of [re] that the table does not use; a pattern holding one
    of them is outside this fragment. *)
Definition unsupported (c : ascii) : bool :=
  bool_decide (c ∈ ["+"; "?"; "["; "]"; "{"; "}"; "|"; "^"; "$"]%char).

(** [parse s cur stack]: [cur] is the innermost open sequence, [stack] the
    enclosing ones. Groups only delimit: capturing has no effect on
    whether [search] succeeds. [None] is [re.error] (or a pattern outside
    the fragment). *)
Fixpoint parse (s : string) (cur : list regex) (stack : list (list regex))
  : option regex :=
  match s with
  | EmptyString =>
      match stack with [] => Some (seq_of cur) | _ :: _ => None end
  | String c s' =>
      if decide (c = "("%char) then parse s' [] (cur :: stack)
      else if decide (c = ")"%char) then
        match stack with
        | [] => None
        | up :: stack' => parse s' (seq_of cur :: up) stack'
        end
      else if decide (c = "*"%char) then
        match cur with
        | [] => None
        | Star _ :: _ => None
        | r :: cur' => parse s' (Star r :: cur') stack
        end
      else if decide (c = "."%char) then parse s' (Dot :: cur) stack
      else if decide (c = backslash) then
        match s' with
        | EmptyString => None
        | String d s'' =>
            if is_alnum d then None else parse s'' (Chr d :: cur) stack
        end
      else if unsupported c then None
      else parse s' (Chr c :: cur) stack
  end.

(** Syntax tree of a pattern; [None] is [re.error]. *)
Definition parse_pattern (s : string) : option regex := parse s [] [].

(** [star_rests step n s]: the remainders of [s] after zero or more
    non-empty matches of the starred expression; every round consumes a
    character, so [n = length s] rounds are enough. *)
Fixpoint star_rests (step : string → list string) (n : nat) (s : string)
  : list string :=
  s :: match n with
       | O => []
       | S n' =>
           flat_map (star_rests step n')
             (filter (λ s', (String.length s' < String.length s)%nat) (step s))
       end.

(** [rests r s]: every [s'] such that [s = w ++ s'] with [w] matched by
    [r], in the order a backtracking matcher tries them. *)
Fixpoint rests (r : regex) (s : string) : list string :=
  match r with
  | Eps => [s]
  | Chr c =>
      match s with
      | String c' s' => if decide (c' = c) then [s'] else []
      | EmptyString => []
      end
  | Dot =>
      match s with
      | String c' s' => if decide (c' = "010"%char) then [] else [s']
      | EmptyString => []
      end
  | Cat r1 r2 => flat_map (rests r2) (rests r1 s)
  | Star r' => star_rests (rests r') (String.length s) s
  end.

(** [regex.match(s)] as a truth value: a match starting at the first
    character. *)
Definition matches_at (r : regex) (s : string) : bool :=
  match rests r s with [] => false | _ :: _ => true end.

(** [regex.search(s)] as a truth value: a match starting anywhere. *)
Fixpoint re_search (r : regex) (s : string) : bool :=
  matches_at r s
  || match s with
     | EmptyString => false
     | String _ s' => re_search r s'
     end.

End Re.

Export Re(regex, re_search).

(** A compiled [re.Pattern]. The program uses it through [search] only, and
    only for the truth value of the result. *)
Record Pattern : Type := mkPattern { search : string → bool }.

(** [re.compile(s)] *)
Definition re_compile (s : string) : option Pattern :=
  r ← Re.parse_pattern s; Some (mkPattern (re_search r)).

(** ** The classification table *)

Section Table.
Import Str.



(** [_FILTERS]: code and pattern source, in the order of the program. *)
Definition _FILTERS : list (string * string) :=
  [ ("invalid_syntax", "syntax error in type comment");
    ("wrong_number_of_args", "Type signature has ");
    ("misplaced_annotation", "misplaced type annotation");
    ("not_defined", " is not defined");
    ("invalid_type_arguments",
      "(" +:+ dq +:+ ".*" +:+ dq +:+ " expects .* type argument)"
      +:+ "(Optional.* must have exactly one type argument)"
      +:+ "(is not subscriptable)");
    ("generator_expected", "The return type of a generator function should be ");
    ("orphaned_overload", "Overloaded .* will never be matched");
    ("already_defined", "already defined");
    ("return_expected", "Return value expected");
    ("return_not_expected", "No return value expected");
    ("incompatible_return", "Incompatible return value type");
    ("incompatible_yield", "Incompatible types in " +:+ dq +:+ "yield" +:+ dq);
    ("incompatible_arg", "Argument .* has incompatible type");
    ("incompatible_default_arg", "Incompatible default for argument");
    ("incompatible_subclass_signature", "Signature .* incompatible with supertype");
    ("incompatible_subclass_return", "Return type .* incompatible with supertype");
    ("incompatible_subclass_arg", "Argument .* incompatible with supertype");
    ("incompatible_subclass_attr",
      "Incompatible types in assignment "
      +:+ bsl +:+ "(expression has type " +:+ dq +:+ ".*" +:+ dq +:+ ", base class "
      +:+ dq +:+ ".*" +:+ dq +:+ " defined the type as " +:+ dq +:+ ".*" +:+ dq
      +:+ bsl +:+ ")");
    ("need_annotation", "Need type annotation");
    ("missing_module", "Cannot find module ");
    ("no_attr_none_case",
      "Item " +:+ dq +:+ "None" +:+ dq +:+ " of " +:+ dq +:+ ".*" +:+ dq
      +:+ " has no attribute");
    ("incompatible_subclass_attr_none_case",
      "Incompatible types in assignment " +:+ bsl +:+ "(expression has type "
      +:+ dq +:+ ".*" +:+ dq +:+ ", base class "
      +:+ dq +:+ ".*" +:+ dq +:+ " defined the type as " +:+ dq +:+ "None" +:+ dq
      +:+ bsl +:+ ")");
    ("incompatible_list_comprehension", "List comprehension has incompatible type");
    ("cannot_assign_to_method", "Cannot assign to a method");
    ("not_enough_arguments", "Too few arguments");
    ("not_callable", " not callable");
    ("no_attr", ".* has no attribute");
    ("not_indexable", " not indexable");
    ("invalid_index", "Invalid index type");
    ("not_iterable", " not iterable");
    ("not_assignable_by_index", "Unsupported target for indexed assignment");
    ("no_matching_overload", "No overload variant of .* matches argument type");
    ("incompatible_assignment", "Incompatible types in assignment");
    ("invalid_return_assignment", "does not return a value");
    ("unsupported_operand", "Unsupported .*operand ");
    ("abc_with_abstract_attr",
      "Cannot instantiate abstract class .* with abstract attribute") ].

(** [[(n, re.compile(s)) for n, s in _FILTERS]]; [None] when some
    pattern does not compile. *)
Definition compile_filters (l : list (string * string))
  : option (list (string * Pattern)) :=
  mapM (λ '(n, s), r ← re_compile s; Some (n, r)) l.

Definition FILTERS : list (string * Pattern) :=
  default [] (compile_filters _FILTERS).

(** [frozenset(n for n, s in FILTERS)] *)
Definition FILTERS_SET : gset string := list_to_set (FILTERS.*1).

Definition get_error_codes : gset string := FILTERS_SET.

Definition GLOBAL_ONLY_OPTIONS : list string :=
  ["color"; "show_ignored"; "show_error_keys"].
End Table.

(** [get_error_code(msg)] over an arbitrary table: the code of the first
    rule whose pattern is found in [msg]. *)
Fixpoint first_match (filters : list (string * Pattern)) (msg : string)
  : option string :=
  match filters with
  | [] => None
  | (code, regex) :: filters' =>
      if search regex msg then Some code else first_match filters' msg
  end.

Definition get_error_code (msg : string) : option string :=
  first_match FILTERS msg.

(** ** Options and the status policy *)

(** [class Options]. [paths = None] is the class default. *)
Record Options : Type := mkOptions {
  select : gset string;
  ignore : gset string;
  warn : gset string;
  exclude : list Pattern;
  paths : option (list string);
  color : bool;
  show_ignored : bool;
  show_error_keys : bool;
}.

(** [Options()]: the class attributes. *)
Definition default_options : Options :=
  {| select := ∅; ignore := ∅; warn := ∅; exclude := []; paths := None;
     color := true; show_ignored := false; show_error_keys := false |}.

(** Truth value of a set of codes. *)
Definition set_truthy (X : gset string) : bool := bool_decide (X ≠ ∅).

(** Truth value of an [Optional[str]]. *)
Definition opt_truthy (o : option string) : bool :=
  match o with Some s => Str.truthy s | None => false end.

Definition is_excluded_path (path : string) (options : Options) : bool :=
  existsb (λ regex, search regex path) (exclude options).

Definition get_status (options : Options) (error_code : string)
  : option string :=
  if set_truthy (select options)
     && bool_decide (error_code ∈ select options) then Some "error"
  else if set_truthy (warn options)
     && bool_decide (error_code ∈ warn options) then Some "warning"
  else if set_truthy (ignore options)
     && bool_decide (error_code ∈ ignore options) then None
  else if set_truthy (ignore options) || negb (set_truthy (select options))
    then Some "error"
  else None.

(** ** Output *)

(** One call of [report]: its arguments after [options]. *)
Record report_call : Type := mkReport {
  r_filename : string;
  r_lineno : string;
  r_status : string;
  r_msg : string;
  r_is_filtered : bool;
  r_error_key : option string;
}.

(** What the engine writes to standard output, in order. *)
Inductive output : Type :=
| Echo (line : string)          (* [print(line, end='')] *)
| Report (call : report_call)    (* [report(options, ...)] *)
| Banner.                        (* [cprint("Warning: A severe error occurred", "red")] *)


(** ** The streaming filter *)

(** The two unpackings at the head of the loop. *)
Inductive parsed : Type :=
| Malformed
| Fields (filename lineno status msg : string).

Definition parse_line (line : string) : parsed :=
  match Str.split ":" 3 line with
  | [filename; lineno; status; msg] => Fields filename lineno status msg
  | _ =>
      match Str.split ":" 2 line with
      | [filename; status; msg] => Fields filename EmptyString status msg
      | _ => Malformed
      end
  end.

(** The loop variables of [run]. [last_error] leaves out its first
    component, [options], which never changes. *)
Record run_state : Type := mkState {
  matched_error : option (option string * string);
  errors : Z;
  last_error : option (string * string * string * option string);
  out : list output;
}.

Definition init_state : run_state :=
  {| matched_error := None; errors := 0; last_error := None; out := [] |}.

(** One iteration of [for line in proc.stdout]. *)
Definition step (options : Options) (st : run_state) (line : string)
  : run_state :=
  match parse_line line with
  | Malformed =>
      mkState (matched_error st) (errors st) (last_error st)
        (out st ++ [Echo line])
  | Fields filename lineno status msg =>
      if is_excluded_path filename options then st
      else
        let error_code := get_error_code msg in
        let status := Str.strip status in
        let msg := Str.strip msg in
        let last := Some (filename, lineno, msg, error_code) in
        if opt_truthy error_code && bool_decide (status = "error") then
          let code := default EmptyString error_code in
          let new_status := get_status options code in
          let errors' :=
            if bool_decide (new_status = Some "error")
            then errors st + 1 else errors st in
          if show_ignored options || opt_truthy new_status then
            mkState (Some (new_status, code)) errors' last
              (out st ++
                 [Report (mkReport filename lineno
                            (if opt_truthy new_status
                             then default EmptyString new_status else "error")
                            msg (negb (opt_truthy new_status)) (Some code))])
          else mkState None errors' last (out st)
        else if bool_decide (status = "note")
                && bool_decide (matched_error st ≠ None) then
          match matched_error st with
          | Some (parent_status, parent_code) =>
              mkState (matched_error st) (errors st) last
                (out st ++
                   [Report (mkReport filename lineno status msg
                              (negb (opt_truthy parent_status))
                              (Some parent_code))])
          | None => mkState (matched_error st) (errors st) last (out st)
          end
        else mkState (matched_error st) (errors st) last (out st)
  end.

(** The subprocess seen from [run]: the lines of its standard output and
    the value of [proc.wait()]. *)
Record process : Type := mkProcess {
  stdout : list string;
  wait : Z;
}.

(** After the loop: the severe-error path and the return value. *)
Definition finish (options : Options) (returncode : Z) (st : run_state)
  : list output * Z :=
  let out' :=
    if bool_decide (returncode ≠ 1) then
      out st ++ Banner ::
        match last_error st with
        | Some (filename, lineno, msg, error_code) =>
            [Report (mkReport filename lineno "error" msg false None)]
        | None => []
        end
    else out st in
  (out', if bool_decide (errors st ≠ 0) then returncode else 0).

(** [run] from the first line read on. *)
Definition run_process (options : Options) (proc : process) : list output * Z :=
  finish options (wait proc) (fold_left (step options) (stdout proc) init_state).

Section Run.
(** The collaborators of [run]: [os.environ], [os.pathsep] and
    [subprocess.Popen(args, stdout=PIPE[, env=env])]. *)
Variable environ : gmap string string.
Variable pathsep : string.
Variable Popen : list string → option (gmap string string) → process.

(** The head of [run]: the command line, the environment and the
    subprocess they start. *)
Definition spawn (mypy_options : option (list string)) (options : Options)
  (daemon_mode : bool) : process :=
  let args := if daemon_mode then ["dmypy"; "run"; "--"] else ["mypy"] in
  let args := args ++ default [] mypy_options in
  match paths options with
  | Some (p :: ps) =>
      let mypy_path :=
        match environ !! "MYPY_PATH" with
        | Some (String c s) => Str.join pathsep (String c s :: p :: ps)
        | _ => Str.join pathsep (p :: ps)
        end in
      Popen args (Some (<["MYPY_PATH" := mypy_path]> environ))
  | _ => Popen args None
  end.

(** [run(mypy_options, options, daemon_mode)]: what it prints and what
    it returns. *)
Definition run (mypy_options : option (list string)) (options : Options)
  (daemon_mode : bool) : list output * Z :=
  run_process options (spawn mypy_options options daemon_mode).
End Run.

(** ** Reading the stream line by line *)

(** What one iteration appends to the output. *)
Definition emitted (options : Options) (st : run_state) (line : string)
  : list output :=
  drop (length (out st)) (out (step options st line)).

(** The line is a diagnostic the engine looks at: it has one of the two
    shapes and its path is not excluded. The result is the tuple kept in
    [last_error]. *)
Definition seen (options : Options) (line : string)
  : option (string * string * string * option string) :=
  match parse_line line with
  | Malformed => None
  | Fields filename lineno status msg =>
      if is_excluded_path filename options then None
      else Some (filename, lineno, Str.strip msg, get_error_code msg)
  end.

(** The line is an error line with a recognized code that the status
    policy resolves to ['error']. *)
Definition counts_as_error (options : Options) (line : string) : bool :=
  match parse_line line with
  | Malformed => false
  | Fields filename lineno status msg =>
      negb (is_excluded_path filename options)
      && bool_decide (Str.strip status = "error")
      && match get_error_code msg with
         | Some code => bool_decide (get_status options code = Some "error")
         | None => false
         end
  end.

(** The invariant [main] establishes before it calls [run]: no code is
    both selected and ignored. *)
Definition select_ignore_disjoint (options : Options) : Prop :=
  select options ## ignore options.

(** ** Configuration sections *)

Module Config.

(** The values that reach [Options] from a configuration file. *)
Inductive value : Type :=
| VNone
| VBool (b : bool)
| VSet (s : gset string)
| VList (l : list string)
| VPatterns (l : list Pattern).

Inductive exn : Type :=
| AttributeError (type_name attr : string)
| TypeError (what : string).

(** What a generator does, in order, and how it ends. *)
Inductive event : Type :=
| Stdout (s : string)
| Stderr (s : string)
| Yield (updates : gmap string value) (fpath : option string).

Inductive outcome : Type :=
| Returned
| Raised (e : exn).

(** A section proxy: its keys, in order, with their raw values. *)
Definition section : Type := list (string * string).

(** The parser after [read]: [parser.items()], the default section
    included. *)
Definition config : Type := list (string * section).

Definition CONFIG_FILE : string := "mypyrun.ini".
Definition SHARED_CONFIG_FILES : list string := ["mypy.ini"; "setup.cfg"].
Definition USER_CONFIG_FILES : list string := ["~/.mypy.ini"].
Definition CONFIG_FILES : list string :=
  CONFIG_FILE :: SHARED_CONFIG_FILES ++ USER_CONFIG_FILES.

(** Attribute lookup on an [Options] object; [None] is [AttributeError].
    Names that every Python object inherits are not modelled: keys are
    taken to be option names. *)
Definition getattr (o : Options) (key : string) : option value :=
  if decide (key = "select") then Some (VSet (select o))
  else if decide (key = "ignore") then Some (VSet (ignore o))
  else if decide (key = "warn") then Some (VSet (warn o))
  else if decide (key = "exclude") then Some (VPatterns (exclude o))
  else if decide (key = "paths") then
    Some (match paths o with Some l => VList l | None => VNone end)
  else if decide (key = "color") then Some (VBool (color o))
  else if decide (key = "show_ignored") then Some (VBool (show_ignored o))
  else if decide (key = "show_error_keys") then Some (VBool (show_error_keys o))
  else None.

(** Attribute lookup on the class [Options] itself, as in
    [Options.PER_MODULE_OPTIONS]: the class holds the defaults. *)
Definition Options_attr (name : string) : exn + value :=
  match getattr default_options name with
  | Some v => inr v
  | None => inl (AttributeError "Options" name)
  end.

(** [setattr(options, k, v)], for the values [_parse_section] builds. *)
Definition setattr (o : Options) (k : string) (v : value) : Options :=
  match v with
  | VSet s =>
      if decide (k = "select") then
        mkOptions s (ignore o) (warn o) (exclude o) (paths o)
          (color o) (show_ignored o) (show_error_keys o)
      else if decide (k = "ignore") then
        mkOptions (select o) s (warn o) (exclude o) (paths o)
          (color o) (show_ignored o) (show_error_keys o)
      else if decide (k = "warn") then
        mkOptions (select o) (ignore o) s (exclude o) (paths o)
          (color o) (show_ignored o) (show_error_keys o)
      else o
  | VPatterns l =>
      if decide (k = "exclude") then
        mkOptions (select o) (ignore o) (warn o) l (paths o)
          (color o) (show_ignored o) (show_error_keys o)
      else o
  | VList l =>
      if decide (k = "paths") then
        mkOptions (select o) (ignore o) (warn o) (exclude o) (Some l)
          (color o) (show_ignored o) (show_error_keys o)
      else o
  | VBool b =>
      if decide (k = "color") then
        mkOptions (select o) (ignore o) (warn o) (exclude o) (paths o)
          b (show_ignored o) (show_error_keys o)
      else if decide (k = "show_ignored") then
        mkOptions (select o) (ignore o) (warn o) (exclude o) (paths o)
          (color o) b (show_error_keys o)
      else if decide (k = "show_error_keys") then
        mkOptions (select o) (ignore o) (warn o) (exclude o) (paths o)
          (color o) (show_ignored o) b
      else o
  | VNone => o
  end.

(** [_parse_multi_options(options)]: split on commas, strip, discard
    empties. *)
Definition _parse_multi_options (options : string) : list string :=
  if Str.truthy options then
    filter (λ o, Str.truthy o = true)
      (Str.strip <$> Str.split_all ","%char options)
  else [].

(** [section.getboolean(key)] of [configparser]: [inl] is the message of
    its [ValueError]. *)
Definition getboolean (raw : string) : string + bool :=
  let v := Str.lower raw in
  if bool_decide (v ∈ ["1"; "yes"; "true"; "on"]) then inr true
  else if bool_decide (v ∈ ["0"; "no"; "false"; "off"]) then inr false
  else inl ("Not a boolean: " +:+ raw).

(** [in] on a value. *)
Definition contains (v : value) (k : string) : exn + bool :=
  match v with
  | VSet s => inr (bool_decide (k ∈ s))
  | VList l => inr (bool_decide (k ∈ l))
  | _ => inl (TypeError "argument is not iterable")
  end.

Section Parser.
(** The collaborators: [os.path.exists], [os.path.expanduser],
    [parser.read] (the parser afterwards, and the message of a
    [configparser.Error] if it raised) and
    [re.compile(fnmatch.translate(x))]. *)
Variable path_exists : string → bool.
Variable expanduser : string → string.
Variable parser_read : config → string → config * option string.
Variable glob_pattern : string → Pattern.

(** The entries of [config_types], applied to a raw value. *)
Definition config_types (key raw : string) : option value :=
  if bool_decide (key ∈ ["select"; "ignore"; "warn"]) then
    Some (VSet (list_to_set (_parse_multi_options raw)))
  else if decide (key = "paths") then
    Some (VList (_parse_multi_options raw))
  else if decide (key = "exclude") then
    Some (VPatterns (glob_pattern <$> _parse_multi_options raw))
  else None.

(** [_parse_section(prefix, template, section)]: the messages written to
    standard error, last first, and the resulting dictionary. A key
    outside [config_types] is converted by the type of the template's
    attribute, and only the three flags are such keys. *)
Fixpoint _parse_section_go (prefix : string) (template : Options)
  (keys : section) (log : list string) (results : gmap string value)
  : list string * gmap string value :=
  match keys with
  | [] => (log, results)
  | (key, raw) :: keys' =>
      match config_types key raw with
      | Some v =>
          _parse_section_go prefix template keys' log (<[key := v]> results)
      | None =>
          match default VNone (getattr template key) with
          | VBool _ =>
              match getboolean raw with
              | inr b =>
                  _parse_section_go prefix template keys' log
                    (<[key := VBool b]> results)
              | inl err =>
                  _parse_section_go prefix template keys'
                    ((prefix +:+ ": " +:+ key +:+ ": " +:+ err) :: log)
                    results
              end
          | _ =>
              _parse_section_go prefix template keys'
                ((prefix +:+ ": Unrecognized option: " +:+ key +:+ " = "
                  +:+ raw) :: log)
                results
          end
      end
  end.

Definition _parse_section (prefix : string) (template : Options)
  (sec : section) : list event * gmap string value :=
  let '(log, results) := _parse_section_go prefix template sec [] ∅ in
  (Stderr <$> reverse log, results).

(** The [for config_file in config_files] loop with its [else]: the
    events, and the file read with the parser, if any. *)
Fixpoint find_config (config_files : list string) (parser : config)
  : list event * option (string * config) :=
  match config_files with
  | [] => ([Stdout "No config files found"], None)
  | config_file :: rest =>
      if path_exists config_file then
        match parser_read parser config_file with
        | (parser', Some err) =>
            let '(evs, r) := find_config rest parser' in
            (Stderr (config_file +:+ ": " +:+ err) :: evs, r)
        | (parser', None) => ([], Some (config_file, parser'))
        end
      else find_config rest parser
  end.

(** [{k: v for k, v in updates.items() if k in Options.PER_MODULE_OPTIONS}]:
    the condition is evaluated once per item. *)
Fixpoint per_module_only (items : list (string * value))
  : exn + gmap string value :=
  match items with
  | [] => inr ∅
  | (k, v) :: items' =>
      match Options_attr "PER_MODULE_OPTIONS" with
      | inl e => inl e
      | inr allowed =>
          match contains allowed k with
          | inl e => inl e
          | inr keep =>
              match per_module_only items' with
              | inl e => inl e
              | inr m => inr (if keep then <[k := v]> m else m)
              end
          end
      end
  end.

(** The global-only keys of a dictionary, sorted. *)
Definition global_only_keys (updates : gmap string value) : list string :=
  merge_sort String.le
    (elements (dom updates ∩ list_to_set GLOBAL_ONLY_OPTIONS : gset string)).

(** The loop over [parser.items()]. *)
Fixpoint override_sections (file_read : string) (options : Options)
  (items : config) : list event * outcome :=
  match items with
  | [] => ([], Returned)
  | (name, sec) :: items' =>
      if Str.startswith "mypyrun-" name then
        let prefix := file_read +:+ ": [" +:+ name +:+ "]" in
        let '(evs, updates) := _parse_section prefix options sec in
        let stripped :=
          match global_only_keys updates with
          | [] => (evs, inr updates)
          | bad =>
              (evs ++
                 [Stderr (prefix +:+
                    ": Per-module sections should only specify per-module flags ("
                    +:+ Str.join ", " bad +:+ ")")],
               per_module_only (map_to_list updates))
          end in
        match stripped with
        | (evs', inl e) => (evs', Raised e)
        | (evs', inr updates') =>
            let globs := Str.drop 5 name in
            let yields :=
              (λ glob, Yield updates' (Some glob))
                <$> Str.split_all ","%char globs in
            let '(rest, r) := override_sections file_read options items' in
            (evs' ++ yields ++ rest, r)
        end
      else override_sections file_read options items'
  end.

(** [ConfigFileOptionsParser(filename).extract_updates(options)] *)
Definition extract_updates (filename : option string) (options : Options)
  : list event * outcome :=
  let config_files :=
    match filename with
    | Some f => [f]
    | None => expanduser <$> CONFIG_FILES
    end in
  match find_config config_files [] with
  | (evs, None) => (evs, Returned)
  | (evs, Some (file_read, parser)) =>
      let global :=
        match list_find (λ '(name, _), name = "mypyrun") parser with
        | None =>
            if opt_truthy filename
               || negb (bool_decide (file_read ∈ SHARED_CONFIG_FILES))
            then [Stderr (file_read +:+ ": No [mypyrun] section in config file")]
            else []
        | Some (_, (_, sec)) =>
            let prefix := file_read +:+ ": [" +:+ "mypy" +:+ "]" in
            let '(evs', updates) := _parse_section prefix options sec in
            evs' ++ [Yield updates None]
        end in
      let '(rest, r) := override_sections file_read options parser in
      (evs ++ global ++ rest, r)
  end.

(** [BaseOptionsParser.apply] over the events of a generator. *)
Definition apply_event (options : Options) (ev : event) : Options :=
  match ev with
  | Yield updates _ =>
      foldr (λ '(k, v) o, setattr o k v) options (map_to_list updates)
  | _ => options
  end.

Definition apply (filename : option string) (options : Options)
  : Options * outcome :=
  let '(evs, r) := extract_updates filename options in
  (fold_left apply_event evs options, r).
End Parser.

End Config.

(** ** The checks of [main] *)

Definition PARSING_FAIL : Z := 100.

(** [_validate(filters, error_codes)]: [false] is [sys.exit(PARSING_FAIL)]. *)
Definition _validate (filters error_codes : gset string) : bool :=
  negb (set_truthy (filters ∖ error_codes)).

(** [main] between the option parsers and the call of [run]: [Some n] is
    [sys.exit(n)], [None] lets [run] start. *)
Definition main_checks (options : Options) : option Z :=
  let error_codes := get_error_codes in
  let overlap := select options ∩ ignore options in
  if set_truthy overlap then Some PARSING_FAIL
  else if negb (_validate (select options) error_codes) then Some PARSING_FAIL
  else if negb (_validate (ignore options) error_codes) then Some PARSING_FAIL
  else if negb (_validate (warn options) error_codes) then Some PARSING_FAIL
  else
    let unused := (error_codes ∖ ignore options) ∖ select options in
    if negb (_validate unused error_codes) then Some PARSING_FAIL else None.

(** ** Sample inputs *)

Module Samples.
Import Str Config.

(** No collaborator matters for the streaming claims. *)
Definition no_environ : gmap string string := ∅.
Definition popen (proc : process)
  : list string → option (gmap string string) → process := λ _ _, proc.

Definition too_few : string := "a.py:1: error: Too few arguments for f" +:+ nl.
Definition unknown : string := "a.py:2: error: Unexpected keyword" +:+ nl.
Definition note : string := "a.py:2: note: See the documentation" +:+ nl.
Definition warning : string := "a.py:3: warning: unused section" +:+ nl.

Definition select_only : Options :=
  mkOptions {["no_attr"]} ∅ ∅ [] None true false false.
Definition select_and_ignore : Options :=
  mkOptions {["no_attr"]} {["not_callable"]} ∅ [] None true false false.
Definition warn_and_ignore : Options :=
  mkOptions {["not_callable"]} {["no_attr"]} {["no_attr"]} [] None
    true false false.
Definition ignore_too_few : Options :=
  mkOptions ∅ {["not_enough_arguments"]} ∅ [] None true false false.

(** A configuration file whose first override section sets [color]. *)
Definition override_sets_color : config :=
  [ ("DEFAULT", []);
    ("mypyrun", [("select", "no_attr, not_callable")]);
    ("mypyrun-a*", [("color", "false"); ("ignore", "no_attr")]);
    ("mypyrun-b*", [("ignore", "not_iterable")]) ].

(** The same file without the offending key. *)
Definition override_clean : config :=
  [ ("DEFAULT", []);
    ("mypyrun", [("select", "no_attr, not_callable")]);
    ("mypyrun-a*", [("ignore", "no_attr")]);
    ("mypyrun-b*", [("ignore", "not_iterable")]) ].

(** A file system holding [mypyrun.ini] only, read without error. *)
Definition only_mypyrun_ini (f : string) : bool := bool_decide (f = "mypyrun.ini").
Definition reads (cfg : config) : config → string → config * option string :=
  λ _ _, (cfg, None).
Definition no_glob : string → Pattern := λ _, mkPattern (λ _, false).

Definition extract (cfg : config) : list event * outcome :=
  extract_updates only_mypyrun_ini id (reads cfg) no_glob None default_options.
End Samples.

(** ** Recognized codes in the output *)

(** The key of a reported line, when it has one, is a code of the table. *)
Definition known_key (o : output) : Prop :=
  match o with
  | Report call =>
      match r_error_key call with
      | Some code => code ∈ FILTERS_SET
      | None => True
      end
  | _ => True
  end.

(** The same for the loop variables: the code kept for the notes to come
    and the keys printed so far. *)
Definition known_state (st : run_state) : Prop :=
  match matched_error st with
  | Some (_, code) => code ∈ FILTERS_SET
  | None => True
  end
  ∧ Forall known_key (out st).

(** ** Lines and colours *)

(** [COLORS]: the colour [report] looks up for a status. *)
Definition COLORS : list (string * option string) :=
  [("error", Some "red"); ("warning", Some "yellow"); ("note", None)].

(** The number of colons of a line. *)
Definition colons (s : string) : nat :=
  length (filter (λ c, c = ":"%char) (list_ascii_of_string s)).

(** The line has one of the two shapes and its path is excluded. *)
Definition excluded_line (options : Options) (line : string) : bool :=
  match parse_line line with
  | Fields filename _ _ _ => is_excluded_path filename options
  | Malformed => false
  end.

(** A line the loop printed as an error that counts. *)
Definition counted_report (o : output) : bool :=
  match o with
  | Report call =>
      bool_decide (r_status call = "error") && negb (r_is_filtered call)
  | _ => false
  end.

(** The status of a reported line is a key of [COLORS]. *)
Definition status_known (o : output) : Prop :=
  match o with
  | Report call => r_status call ∈ COLORS.*1
  | _ => True
  end.

(** A reported line is not marked as filtered. *)
Definition unfiltered (o : output) : Prop :=
  match o with
  | Report call => r_is_filtered call = false
  | _ => True
  end.

(** ** The language of a pattern *)

(** The words a pattern of the fragment stands for: what [re] documents,
    stated without reference to how a match is searched. *)
Inductive lang : regex → string → Prop :=
| lang_eps : lang Re.Eps EmptyString
| lang_chr c : lang (Re.Chr c) (String c EmptyString)
| lang_dot c : c ≠ "010"%char → lang Re.Dot (String c EmptyString)
| lang_cat r1 r2 w1 w2 :
    lang r1 w1 → lang r2 w2 → lang (Re.Cat r1 r2) (w1 +:+ w2)
| lang_star_nil r : lang (Re.Star r) EmptyString
| lang_star_cons r w1 w2 :
    w1 ≠ EmptyString → lang r w1 → lang (Re.Star r) w2 →
    lang (Re.Star r) (w1 +:+ w2).

(** [sub in s] on strings. *)
Definition contains (sub s : string) : Prop :=
  ∃ before after, s = before +:+ sub +:+ after.

(** The pattern that matches the characters of [p] one by one. *)
Definition literal (p : string) : regex :=
  foldr (λ c r, Re.Cat (Re.Chr c) r) Re.Eps (list_ascii_of_string p).

(** The characters [Re.parse] gives a meaning of their own. *)
Definition is_meta (c : ascii) : bool :=
  bool_decide (c ∈ ["("; ")"; "*"; "."; Re.backslash]%char) || Re.unsupported c.

Definition plain (p : string) : Prop :=
  Forall (λ c, is_meta c = false) (list_ascii_of_string p).

(** ** The shape of a field *)

(** The value has the shape [config_types], or the type of the flag,
    gives the field [k]. *)
Definition field_shape (k : string) (v : Config.value) : Prop :=
  match v with
  | Config.VSet _ => k ∈ ["select"; "ignore"; "warn"]
  | Config.VList _ => k = "paths"
  | Config.VPatterns _ => k = "exclude"
  | Config.VBool _ => k ∈ GLOBAL_ONLY_OPTIONS
  | Config.VNone => False
  end.

(** ** The command line and [main] *)

Module Cli.
Import Config.

(** A value of the namespace [parse_args] returns. *)
Inductive arg_value : Type :=
| ANone
| ABool (b : bool)
| AStr (s : string)
| AList (l : list string).

#[global] Instance arg_value_eq_dec : EqDecision arg_value.
Proof. solve_decision. Defined.

(** [get_parser()._get_optional_actions()]: destination and default of
    each optional argument, the help action first. The positional
    [flags] is not among them. *)
Definition optional_actions : list (string * arg_value) :=
  [ ("help", AStr "==SUPPRESS==");
    ("list", ABool false);
    ("daemon", ABool false);
    ("select", ANone);
    ("ignore", ANone);
    ("color", ABool true);
    ("show_ignored", ABool false);
    ("show_error_keys", ABool false);
    ("select_all", ABool false) ].

(** The namespace [get_parser().parse_args()] returns. *)
Record Namespace : Type := mkNamespace {
  a_list : bool;
  a_daemon : bool;
  a_select : option string;
  a_ignore : option string;
  a_color : bool;
  a_show_ignored : bool;
  a_show_error_keys : bool;
  a_select_all : bool;
  a_flags : list string;
}.

Definition opt_str (o : option string) : arg_value :=
  match o with Some s => AStr s | None => ANone end.

(** [dict(parsed._get_kwargs())] *)
Definition _get_kwargs (parsed : Namespace) : gmap string arg_value :=
  list_to_map
    [ ("list", ABool (a_list parsed));
      ("daemon", ABool (a_daemon parsed));
      ("select", opt_str (a_select parsed));
      ("ignore", opt_str (a_ignore parsed));
      ("color", ABool (a_color parsed));
      ("show_ignored", ABool (a_show_ignored parsed));
      ("show_error_keys", ABool (a_show_error_keys parsed));
      ("select_all", ABool (a_select_all parsed));
      ("flags", AList (a_flags parsed)) ].

(** [ArgparseOptionsParser._get_specified]: the arguments whose value
    differs from the default of their action. *)
Definition _get_specified (parsed : Namespace) : list (string * arg_value) :=
  let parsed_kwargs := _get_kwargs parsed in
  omap (λ '(dest, default),
          match parsed_kwargs !! dest with
          | Some v => if decide (v ≠ default) then Some (dest, v) else None
          | None => None
          end)
       optional_actions.

(** What a dictionary of command-line updates holds: the result of an
    entry of [config_types], or the parsed value itself. *)
Inductive update : Type :=
| Converted (v : value)
| Passed (v : arg_value).

(** The argument of an entry of [config_types] as
    [_parse_multi_options] reads it: a false value gives no item, any
    other value must have [split]. *)
Definition multi_option_source (v : arg_value) : exn + string :=
  match v with
  | AStr s => inr s
  | ANone | ABool false | AList [] => inr EmptyString
  | ABool true => inl (AttributeError "bool" "split")
  | AList (_ :: _) => inl (AttributeError "list" "split")
  end.

Section Argparse.
Variable glob_pattern : string → Pattern.

(** The keys of [config_types]. *)
Definition config_keys : list string :=
  ["select"; "ignore"; "warn"; "paths"; "exclude"].

(** The loop of [ArgparseOptionsParser.extract_updates]. *)
Fixpoint argparse_updates_go (options : Options)
  (specified : list (string * arg_value)) (results : gmap string update)
  : exn + gmap string update :=
  match specified with
  | [] => inr results
  | (key, v) :: specified' =>
      if bool_decide (key ∈ config_keys) then
        match multi_option_source v with
        | inl e => inl e
        | inr raw =>
            match config_types glob_pattern key raw with
            | Some converted =>
                argparse_updates_go options specified'
                  (<[key := Converted converted]> results)
            | None => argparse_updates_go options specified' results
            end
        end
      else
        match default VNone (getattr options key) with
        | VNone => argparse_updates_go options specified' results
        | _ =>
            argparse_updates_go options specified'
              (<[key := Passed v]> results)
        end
  end.

(** [ArgparseOptionsParser(parser, parsed).extract_updates(options)]: the
    one dictionary it yields, or the exception that ends it. *)
Definition argparse_updates (parsed : Namespace) (options : Options)
  : exn + gmap string update :=
  argparse_updates_go options (_get_specified parsed) ∅.

(** [setattr(options, k, v)] for a command-line update. Of the parsed
    values only the flags are passed on as they are, and the flags of the
    namespace are booleans. *)
Definition set_update (o : Options) (k : string) (u : update) : Options :=
  match u with
  | Converted v => setattr o k v
  | Passed (ABool b) => setattr o k (VBool b)
  | Passed _ => o
  end.

(** [ArgparseOptionsParser(parser, parsed).apply(options)] *)
Definition argparse_apply (parsed : Namespace) (options : Options)
  : exn + Options :=
  match argparse_updates parsed options with
  | inl e => inl e
  | inr updates =>
      inr (foldr (λ '(k, u) o, set_update o k u) options (map_to_list updates))
  end.
End Argparse.

(** What [main] writes, in order, and how it ends. *)
Inductive main_event : Type :=
| MConfig (e : event)     (* written by the configuration parser *)
| MOut (s : string)       (* [print(s)] *)
| MErr (s : string)       (* [print(s, file=sys.stderr)] *)
| MRun (o : output).      (* written by [run] *)

Inductive main_outcome : Type :=
| SysExit (code : Z)
| Uncaught (e : exn).

(** [args.select_all]: every code selected, ignored lines shown. *)
Definition select_all (options : Options) : Options :=
  mkOptions get_error_codes (ignore options) (warn options) (exclude options)
    (paths options) (color options) true (show_error_keys options).

(** The message of [_validate], when it exits. *)
Definition _validate_message (filters error_codes : gset string)
  : option string :=
  match merge_sort String.le (elements (filters ∖ error_codes)) with
  | [] => None
  | invalid =>
      Some ("Invalid filter(s): " +:+ Str.join ", " invalid +:+ Str.nl)
  end.

(** The checks of [main] with what they print: [Some msg] is the message
    written before [sys.exit(PARSING_FAIL)]. The overlap is joined in the
    order the set iterates. *)
Definition main_validation (options : Options) : option string :=
  let error_codes := get_error_codes in
  let overlap := select options ∩ ignore options in
  if set_truthy overlap then
    Some ("The same option must not be both selected and ignored: "
          +:+ Str.join ", " (elements overlap))
  else
    match _validate_message (select options) error_codes with
    | Some msg => Some msg
    | None =>
    match _validate_message (ignore options) error_codes with
    | Some msg => Some msg
    | None =>
    match _validate_message (warn options) error_codes with
    | Some msg => Some msg
    | None =>
        let unused := (error_codes ∖ ignore options) ∖ select options in
        _validate_message unused error_codes
    end end end.

Section Main.
Variable path_exists : string → bool.
Variable expanduser : string → string.
Variable parser_read : config → string → config * option string.
Variable glob_pattern : string → Pattern.
Variable environ : gmap string string.
Variable pathsep : string.
Variable Popen : list string → option (gmap string string) → process.

(** [main] from [parsers = [...]] to the end of [if args.select_all]:
    what the configuration parser writes, and the options handed to the
    checks. The generator of the configuration parser reads the options
    it is given only as the template of [_parse_section], whose result
    does not depend on the values the template holds: it is run on the
    defaults and its dictionaries are applied afterwards. *)
Definition effective_options (args : Namespace)
  : list event * (exn + Options) :=
  let '(evs, r) :=
    extract_updates path_exists expanduser parser_read glob_pattern
      None default_options in
  let options := fold_left apply_event evs default_options in
  match r with
  | Raised e => (evs, inl e)
  | Returned =>
      match argparse_apply glob_pattern args options with
      | inl e => (evs, inl e)
      | inr options' =>
          (evs, inr (if a_select_all args then select_all options'
                     else options'))
      end
  end.

(** [main()] after [args = parser.parse_args()]. *)
Definition main (args : Namespace) : list main_event * main_outcome :=
  if a_list args then
    ((λ name, MOut ("  " +:+ name))
       <$> merge_sort String.le (elements get_error_codes),
     SysExit 0)
  else
    match effective_options args with
    | (evs, inl e) => (MConfig <$> evs, Uncaught e)
    | (evs, inr options) =>
        match main_validation options with
        | Some msg => ((MConfig <$> evs) ++ [MErr msg], SysExit PARSING_FAIL)
        | None =>
            let '(outs, code) :=
              run environ pathsep Popen (Some (a_flags args)) options
                (a_daemon args) in
            ((MConfig <$> evs) ++ (MRun <$> outs), SysExit code)
        end
    end.
End Main.

End Cli.

(** ** An item of a list of options *)

(** An item as [_parse_multi_options] returns it: not empty, nothing for
    [strip] to remove, no comma. *)
Definition option_item (o : string) : Prop :=
  o ≠ EmptyString
  ∧ Str.strip o = o
  ∧ ","%char ∉ list_ascii_of_string o.

(** ** Keys of a configuration file *)

(** The key is none of the names every Python object has ([__doc__],
    [__class__], ...). [Config.getattr] knows the fields of [Options]
    only, so what is stated for every configuration is stated for keys
    of this kind. *)
Definition ordinary_key (key : string) : Prop :=
  Str.startswith "__" key = false.

Definition ordinary_section (sec : Config.section) : Prop :=
  Forall (λ kv, ordinary_key kv.1) sec.

Definition ordinary_config (parser : Config.config) : Prop :=
  Forall (λ s, ordinary_section s.2) parser.

(** * Properties *)

(** ** The table *)

Lemma first_match_elem filters msg code :
  first_match filters msg = Some code → code ∈ filters.*1.
Proof.
  induction filters as [|[c r] filters IH]; simpl; [done|].
  destruct (search r msg).
  - intros [= ->]. left.
  - intros H. right. auto.
Qed.

(** Every pattern of the table compiles, so [FILTERS] is the whole table. *)
Lemma FILTERS_codes : FILTERS.*1 = _FILTERS.*1.
Proof. vm_compute. reflexivity. Qed.

Lemma FILTERS_truthy : Forall (λ code, Str.truthy code = true) (FILTERS.*1).
Proof. rewrite FILTERS_codes. repeat constructor. Qed.

Lemma get_error_code_elem msg code :
  get_error_code msg = Some code → code ∈ FILTERS.*1.
Proof. apply first_match_elem. Qed.

Lemma get_error_code_truthy msg code :
  get_error_code msg = Some code → Str.truthy code = true.
Proof.
  intros H%get_error_code_elem.
  by eapply (proj1 (Forall_forall _ _) FILTERS_truthy).
Qed.

Lemma get_error_code_opt_truthy msg :
  opt_truthy (get_error_code msg) = bool_decide (get_error_code msg ≠ None).
Proof.
  destruct (get_error_code msg) as [code|] eqn:H; simpl.
  - by rewrite (get_error_code_truthy _ _ H).
  - done.
Qed.

(** ** One iteration of the loop *)

Lemma step_error_line options st line f l s m code :
  parse_line line = Fields f l s m →
  is_excluded_path f options = false →
  get_error_code m = Some code →
  Str.strip s = "error" →
  step options st line =
    let new_status := get_status options code in
    let errors' :=
      if bool_decide (new_status = Some "error") then errors st + 1 else errors st in
    let last := Some (f, l, Str.strip m, Some code) in
    if show_ignored options || opt_truthy new_status then
      mkState (Some (new_status, code)) errors' last
        (out st ++
           [Report (mkReport f l
                      (if opt_truthy new_status then default EmptyString new_status
                       else "error")
                      (Str.strip m) (negb (opt_truthy new_status)) (Some code))])
    else mkState None errors' last (out st).
Proof.
  intros Hp He Hc Hs. unfold step. rewrite Hp, He, Hs.
  rewrite get_error_code_opt_truthy, Hc.
  rewrite (bool_decide_true (Some code ≠ None)) by discriminate.
  rewrite (bool_decide_true ("error" = "error")) by reflexivity.
  reflexivity.
Qed.

Lemma step_note_line options st line f l s m :
  parse_line line = Fields f l s m →
  is_excluded_path f options = false →
  Str.strip s = "note" →
  step options st line =
    let last := Some (f, l, Str.strip m, get_error_code m) in
    match matched_error st with
    | Some (parent_status, parent_code) =>
        mkState (matched_error st) (errors st) last
          (out st ++
             [Report (mkReport f l "note" (Str.strip m)
                        (negb (opt_truthy parent_status)) (Some parent_code))])
    | None => mkState None (errors st) last (out st)
    end.
Proof.
  intros Hp He Hs. unfold step. rewrite Hp, He, Hs.
  assert (bool_decide ("note" = "error") = false) as Hb by reflexivity.
  assert (bool_decide ("note" = "note") = true) as Hb' by reflexivity.
  rewrite Hb, Hb', andb_false_r.
  destruct (matched_error st) as [[ps pc]|] eqn:Hm.
  - rewrite bool_decide_true by discriminate. reflexivity.
  - rewrite bool_decide_false by (intros H; by apply H). reflexivity.
Qed.

Lemma step_other_line options st line f l s m :
  parse_line line = Fields f l s m →
  is_excluded_path f options = false →
  get_error_code m = None ∨ Str.strip s ≠ "error" →
  Str.strip s ≠ "note" →
  step options st line =
    mkState (matched_error st) (errors st)
      (Some (f, l, Str.strip m, get_error_code m)) (out st).
Proof.
  intros Hp He Hc Hs. unfold step. rewrite Hp, He.
  rewrite get_error_code_opt_truthy.
  assert (bool_decide (Str.strip s = "note") = false) as Hn
    by (by apply bool_decide_eq_false_2).
  assert (bool_decide (get_error_code m ≠ None)
          && bool_decide (Str.strip s = "error") = false) as Hb.
  { destruct Hc as [Hc | Hc].
    - apply andb_false_intro1, bool_decide_eq_false_2. intros H. by apply H.
    - by apply andb_false_intro2, bool_decide_eq_false_2. }
  rewrite Hb, Hn. reflexivity.
Qed.

Lemma step_malformed options st line :
  parse_line line = Malformed →
  step options st line =
    mkState (matched_error st) (errors st) (last_error st) (out st ++ [Echo line]).
Proof. intros Hp. unfold step. by rewrite Hp. Qed.

Lemma step_excluded options st line f l s m :
  parse_line line = Fields f l s m →
  is_excluded_path f options = true →
  step options st line = st.
Proof. intros Hp He. unfold step. by rewrite Hp, He. Qed.

(** The cases of one iteration, as hypotheses in the context. *)
Ltac step_line options st line :=
  let f := fresh "f" in let l := fresh "l" in
  let s := fresh "s" in let m := fresh "m" in
  let Hp := fresh "Hp" in let He := fresh "He" in
  let Hc := fresh "Hc" in let Hs := fresh "Hs" in let Hn := fresh "Hn" in
  destruct (parse_line line) as [|f l s m] eqn:Hp;
  [ rewrite (step_malformed options st line Hp)
  | destruct (is_excluded_path f options) eqn:He;
    [ rewrite (step_excluded options st line f l s m Hp He)
    | destruct (decide (Str.strip s = "note")) as [Hn|Hn];
      [ rewrite (step_note_line options st line f l s m Hp He Hn)
      | destruct (get_error_code m) as [code|] eqn:Hc;
        [ destruct (decide (Str.strip s = "error")) as [Hs|Hs];
          [ rewrite (step_error_line options st line f l s m code Hp He Hc Hs)
          | rewrite (step_other_line options st line f l s m Hp He
                       (or_intror Hs) Hn) ]
        | rewrite (step_other_line options st line f l s m Hp He
                     (or_introl Hc) Hn) ] ] ] ].

Lemma step_errors options st line :
  errors (step options st line)
  = errors st + (if counts_as_error options line then 1 else 0).
Proof.
  unfold counts_as_error.
  step_line options st line; cbn [negb andb errors]; try lia.
  - rewrite Hn, (bool_decide_false ("note" = "error")) by discriminate.
    destruct (matched_error st) as [[? ?]|]; cbn [errors andb]; lia.
  - rewrite Hs, (bool_decide_true ("error" = "error")) by reflexivity. cbn [andb].
    cbv zeta. destruct (show_ignored options || opt_truthy (get_status options code));
      cbn [errors]; case_bool_decide; lia.
  - rewrite (bool_decide_false _ Hs). cbn [andb]. lia.
  - rewrite andb_false_r. lia.
Qed.

Lemma step_last_error options st line :
  last_error (step options st line)
  = match seen options line with
    | Some t => Some t
    | None => last_error st
    end.
Proof.
  unfold seen.
  step_line options st line; try rewrite Hc; try reflexivity.
  - by destruct (matched_error st) as [[? ?]|].
  - cbv zeta. by destruct (show_ignored options || _).
Qed.

(** ** The loop over the whole stream *)

Lemma fold_step_errors options lines st :
  errors (fold_left (step options) lines st)
  = errors st + Z.of_nat (length (List.filter (counts_as_error options) lines)).
Proof.
  revert st. induction lines as [|line lines IH]; intros st; cbn [fold_left List.filter].
  - cbn. lia.
  - rewrite IH, step_errors.
    destruct (counts_as_error options line); cbn [length]; lia.
Qed.

Lemma fold_step_last_error options lines st :
  last_error (fold_left (step options) lines st)
  = match last (omap (seen options) lines) with
    | Some t => Some t
    | None => last_error st
    end.
Proof.
  revert st. induction lines as [|line lines IH]; intros st.
  - reflexivity.
  - cbn [fold_left omap list_omap]. rewrite IH, step_last_error.
    destruct (seen options line) as [t|]; [|reflexivity].
    rewrite last_cons. by destruct (last (omap (seen options) lines)).
Qed.

Lemma fold_step_errors_zero options lines :
  errors (fold_left (step options) lines init_state) = 0
  ↔ List.filter (counts_as_error options) lines = [].
Proof.
  rewrite fold_step_errors. cbn [errors init_state].
  destruct (List.filter (counts_as_error options) lines); cbn [length]; split;
    intros; (done || lia).
Qed.

Lemma emitted_app options st line new :
  out (step options st line) = out st ++ new → emitted options st line = new.
Proof. intros H. unfold emitted. rewrite H. apply drop_app_length. Qed.

Lemma emitted_nil options st line :
  out (step options st line) = out st → emitted options st line = [].
Proof. intros H. unfold emitted. rewrite H. apply drop_all. Qed.

(** The value [run] returns, read off the lines of the stream. *)
Lemma run_value environ pathsep Popen mypy_options options daemon_mode :
  let proc := spawn environ pathsep Popen mypy_options options daemon_mode in
  (run environ pathsep Popen mypy_options options daemon_mode).2
  = if bool_decide (List.filter (counts_as_error options) (stdout proc) = [])
    then 0 else wait proc.
Proof.
  intros proc. unfold run, run_process, finish. fold proc. cbn [snd].
  destruct (decide (List.filter (counts_as_error options) (stdout proc) = []))
    as [Hz|Hz].
  - rewrite (bool_decide_eq_true_2 _ Hz).
    apply fold_step_errors_zero in Hz.
    rewrite bool_decide_eq_false_2; [reflexivity|]. intros H. by apply H.
  - rewrite (bool_decide_eq_false_2 _ Hz).
    rewrite bool_decide_eq_true_2; [reflexivity|].
    intros H. by apply Hz, fold_step_errors_zero.
Qed.

Lemma counts_as_error_spec options line :
  counts_as_error options line = true
  ↔ ∃ f l s m code,
      parse_line line = Fields f l s m
      ∧ is_excluded_path f options = false
      ∧ Str.strip s = "error"
      ∧ get_error_code m = Some code
      ∧ get_status options code = Some "error".
Proof.
  unfold counts_as_error. split.
  - destruct (parse_line line) as [|f l s m]; [discriminate|].
    destruct (is_excluded_path f options) eqn:He; [discriminate|].
    cbn [negb andb].
    destruct (get_error_code m) as [code|] eqn:Hc; [|by rewrite andb_false_r].
    intros [Hs Hst]%andb_prop.
    apply bool_decide_eq_true_1 in Hs, Hst.
    exists f, l, s, m, code. repeat split; assumption.
  - intros (f & l & s & m & code & -> & -> & Hs & -> & Hst). cbn [negb andb].
    apply andb_true_intro. split; by apply bool_decide_eq_true_2.
Qed.

(** ** Codes that flow through the loop *)

Lemma first_match_found filters msg code :
  first_match filters msg = Some code →
  ∃ pattern, (code, pattern) ∈ filters ∧ search pattern msg = true.
Proof.
  induction filters as [|[c r] filters IH]; cbn [first_match]; [done|].
  destruct (search r msg) eqn:Hr.
  - intros [= ->]. exists r. split; [left|done].
  - intros (p & Hp & Hs)%IH. exists p. split; [by right|done].
Qed.

Lemma get_error_code_in_set msg code :
  get_error_code msg = Some code → code ∈ FILTERS_SET.
Proof.
  intros H%get_error_code_elem. unfold FILTERS_SET.
  by apply elem_of_list_to_set.
Qed.

Lemma step_known options st line :
  known_state st → known_state (step options st line).
Proof.
  intros [Hm Ho]. unfold known_state.
  step_line options st line.
  - cbn [matched_error out]. split; [assumption|].
    apply Forall_app. split; [assumption|]. apply Forall_singleton. exact I.
  - split; assumption.
  - destruct (matched_error st) as [[ps pc]|]; cbn [matched_error out].
    + split; [assumption|]. apply Forall_app. split; [assumption|].
      apply Forall_singleton. exact Hm.
    + split; assumption.
  - cbv zeta. apply get_error_code_in_set in Hc.
    destruct (show_ignored options || _); cbn [matched_error out].
    + split; [assumption|]. apply Forall_app. split; [assumption|].
      apply Forall_singleton. exact Hc.
    + split; [exact I|assumption].
  - cbn [matched_error out]. split; assumption.
  - cbn [matched_error out]. split; assumption.
Qed.

Lemma fold_step_known options lines st :
  known_state st → known_state (fold_left (step options) lines st).
Proof.
  revert st. induction lines as [|line lines IH]; intros st H; [done|].
  cbn [fold_left]. by apply IH, step_known.
Qed.

(** ** The status policy *)

Lemma set_truthy_elem (X : gset string) c : c ∈ X → set_truthy X = true.
Proof.
  intros H. apply bool_decide_eq_true_2. intros ->.
  by apply not_elem_of_empty in H.
Qed.

(** The policy as a decision list over memberships. *)
Lemma get_status_cases options c :
  get_status options c =
    if decide (c ∈ select options) then Some "error"
    else if decide (c ∈ warn options) then Some "warning"
    else if decide (c ∈ ignore options) then None
    else if set_truthy (ignore options) || negb (set_truthy (select options))
    then Some "error"
    else None.
Proof.
  unfold get_status.
  destruct (decide (c ∈ select options)) as [Hs|Hs].
  { rewrite (set_truthy_elem _ _ Hs).
    rewrite (bool_decide_eq_true_2 _ Hs). reflexivity. }
  rewrite (bool_decide_eq_false_2 _ Hs), andb_false_r.
  destruct (decide (c ∈ warn options)) as [Hw|Hw].
  { rewrite (set_truthy_elem _ _ Hw).
    rewrite (bool_decide_eq_true_2 _ Hw). reflexivity. }
  rewrite (bool_decide_eq_false_2 _ Hw), andb_false_r.
  destruct (decide (c ∈ ignore options)) as [Hi|Hi].
  { rewrite (set_truthy_elem _ _ Hi).
    rewrite (bool_decide_eq_true_2 _ Hi). reflexivity. }
  rewrite (bool_decide_eq_false_2 _ Hi), andb_false_r.
  reflexivity.
Qed.

(** [main] lets [run] start only on options whose [select] and [ignore]
    are disjoint. *)
Lemma main_checks_disjoint options :
  main_checks options = None → select_ignore_disjoint options.
Proof.
  unfold main_checks, select_ignore_disjoint, set_truthy.
  destruct (decide (select options ∩ ignore options ≠ ∅)) as [Hne|He].
  - rewrite (bool_decide_eq_true_2 _ Hne). discriminate.
  - intros _. apply dec_stable in He. apply disjoint_intersection_L, He.
Qed.

(** ** Override sections *)

Lemma per_module_only_raises items :
  items ≠ [] →
  Config.per_module_only items
  = inl (Config.AttributeError "Options" "PER_MODULE_OPTIONS").
Proof. by destruct items as [|[k v] items]. Qed.

Lemma global_only_keys_nonempty (updates : gmap string Config.value) :
  Config.global_only_keys updates ≠ [] → map_to_list updates ≠ [].
Proof.
  intros H Hempty. apply H.
  apply map_to_list_empty_iff in Hempty as ->.
  unfold Config.global_only_keys.
  rewrite dom_empty_L, intersection_empty_l_L, elements_empty.
  reflexivity.
Qed.

(** An override section that sets a global-only key ends the generator
    with [AttributeError]: the violation is printed, and nothing of that
    section or of the later ones is yielded. *)
Lemma override_sections_global_only
    glob_pattern file_read options name sec items :
  Str.startswith "mypyrun-" name = true →
  Config.global_only_keys
    (Config._parse_section glob_pattern
       (file_read +:+ ": [" +:+ name +:+ "]") options sec).2 ≠ [] →
  ∃ evs,
    Config.override_sections glob_pattern file_read options
      ((name, sec) :: items)
    = (evs, Config.Raised (Config.AttributeError "Options" "PER_MODULE_OPTIONS"))
    ∧ ∀ updates fpath, Config.Yield updates fpath ∉ evs.
Proof.
  intros Hname Hkeys. cbn [Config.override_sections]. rewrite Hname.
  destruct (Config._parse_section _ _ _ _) as [evs updates] eqn:Hps.
  cbn [snd] in Hkeys.
  rewrite (per_module_only_raises _ (global_only_keys_nonempty _ Hkeys)).
  destruct (Config.global_only_keys updates) as [|k ks] eqn:Hk; [done|].
  eexists. split; [reflexivity|].
  intros u fp [Hin|Hin]%elem_of_app.
  - unfold Config._parse_section in Hps.
    destruct (Config._parse_section_go _ _ _ _ _ _) as [log results].
    injection Hps as <- _.
    apply list_elem_of_fmap in Hin as (? & [=] & _).
  - apply list_elem_of_singleton in Hin. discriminate.
Qed.

(** * The claims *)

(** C1. Status Policy precedence. For every options snapshot and code,
    [get_status] decides in this order: a selected code is an ['error'];
    otherwise a code in [warn] is a ['warning']; otherwise a code in
    [ignore] is suppressed; otherwise the code is an ['error'] when
    [ignore] is non-empty or [select] is empty, and suppressed if not. In
    particular, on a snapshot as [main] hands it to [run] ([select] and
    [ignore] disjoint), a code in both [warn] and [ignore] is a
    ['warning']: warn wins over ignore. *)
Theorem get_status_precedence (options : Options) (c : string) :
  (c ∈ select options → get_status options c = Some "error")
  ∧ (c ∉ select options → c ∈ warn options →
       get_status options c = Some "warning")
  ∧ (c ∉ select options → c ∉ warn options → c ∈ ignore options →
       get_status options c = None)
  ∧ (c ∉ select options → c ∉ warn options → c ∉ ignore options →
       get_status options c =
         if bool_decide (ignore options ≠ ∅ ∨ select options = ∅)
         then Some "error" else None)
  ∧ (select_ignore_disjoint options → c ∈ warn options → c ∈ ignore options →
       get_status options c = Some "warning").
Proof.
  rewrite get_status_cases.
  split; [|split; [|split; [|split]]].
  - intros Hs. destruct (decide (c ∈ select options)); [reflexivity|contradiction].
  - intros Hs Hw. destruct (decide (c ∈ select options)); [contradiction|].
    destruct (decide (c ∈ warn options)); [reflexivity|contradiction].
  - intros Hs Hw Hi. destruct (decide (c ∈ select options)); [contradiction|].
    destruct (decide (c ∈ warn options)); [contradiction|].
    destruct (decide (c ∈ ignore options)); [reflexivity|contradiction].
  - intros Hs Hw Hi. destruct (decide (c ∈ select options)); [contradiction|].
    destruct (decide (c ∈ warn options)); [contradiction|].
    destruct (decide (c ∈ ignore options)); [contradiction|].
    unfold set_truthy.
    destruct (decide (ignore options ≠ ∅)) as [Hn|Hn].
    + rewrite (bool_decide_eq_true_2 _ Hn). cbn [orb].
      by rewrite bool_decide_eq_true_2 by (by left).
    + rewrite (bool_decide_eq_false_2 _ Hn). cbn [orb].
      destruct (decide (select options = ∅)) as [He|He].
      * rewrite (bool_decide_eq_false_2 (select options ≠ ∅)) by (by intros H).
        by rewrite bool_decide_eq_true_2 by (by right).
      * rewrite (bool_decide_eq_true_2 _ He). cbn [negb].
        by rewrite bool_decide_eq_false_2 by (by intros [?|?]).
  - intros Hd Hw Hi.
    destruct (decide (c ∈ select options)) as [Hs|_]; [destruct (Hd c Hs Hi)|].
    destruct (decide (c ∈ warn options)); [reflexivity|contradiction].
Qed.

Lemma get_status_precedence_witness :
  get_status Samples.warn_and_ignore "no_attr" = Some "warning".
Proof.
  destruct (get_status_precedence Samples.warn_and_ignore "no_attr")
    as (_ & _ & _ & _ & H).
  apply H.
  - unfold select_ignore_disjoint. apply (bool_decide_unpack _).
    vm_compute. exact I.
  - apply (bool_decide_unpack _). vm_compute. exact I.
  - apply (bool_decide_unpack _). vm_compute. exact I.
Defined.

(** C2, as stated, fails: with [select = {no_attr}] and
    [ignore = {not_callable}] the code [not_iterable] is in none of the
    three sets and [select] is non-empty, yet the policy answers
    ['error']. *)
Lemma get_status_unlisted_counterexample :
  let options := Samples.select_and_ignore in
  let c := "not_iterable" in
  select options ≠ ∅
  ∧ (c ∉ select options) ∧ (c ∉ ignore options) ∧ (c ∉ warn options)
  ∧ get_status options c = Some "error"
  ∧ get_status options c ≠ None.
Proof.
  cbv zeta. repeat split.
  - apply (bool_decide_unpack _). vm_compute. exact I.
  - apply (bool_decide_unpack _). vm_compute. exact I.
  - apply (bool_decide_unpack _). vm_compute. exact I.
  - apply (bool_decide_unpack _). vm_compute. exact I.
  - vm_compute. discriminate.
Qed.

(** C2, amended. For every options snapshot with non-empty [select] and
    every code in none of [select], [ignore] and [warn], [get_status]
    answers suppressed when [ignore] is empty and ['error'] when [ignore]
    is non-empty. *)
Theorem get_status_unlisted (options : Options) (c : string) :
  select options ≠ ∅ →
  c ∉ select options → c ∉ ignore options → c ∉ warn options →
  get_status options c
  = if bool_decide (ignore options = ∅) then None else Some "error".
Proof.
  intros Hne Hs Hi Hw. rewrite get_status_cases.
  destruct (decide (c ∈ select options)); [contradiction|].
  destruct (decide (c ∈ warn options)); [contradiction|].
  destruct (decide (c ∈ ignore options)); [contradiction|].
  unfold set_truthy. rewrite (bool_decide_eq_true_2 _ Hne). cbn [negb].
  rewrite orb_false_r.
  destruct (decide (ignore options = ∅)) as [He|He].
  - rewrite (bool_decide_eq_true_2 _ He).
    by rewrite bool_decide_eq_false_2 by (by intros H).
  - rewrite (bool_decide_eq_false_2 _ He).
    by rewrite (bool_decide_eq_true_2 _ He).
Qed.

Lemma get_status_unlisted_witness :
  get_status Samples.select_only "not_iterable" = None
  ∧ get_status Samples.select_and_ignore "not_iterable" = Some "error".
Proof.
  split.
  - apply (get_status_unlisted Samples.select_only "not_iterable");
      apply (bool_decide_unpack _); vm_compute; exact I.
  - apply (get_status_unlisted Samples.select_and_ignore "not_iterable");
      apply (bool_decide_unpack _); vm_compute; exact I.
Defined.

(** C3, as stated, fails: the subprocess exits with 2 after one line
    that the policy suppresses; the counter is zero and [run] returns 0,
    not 2. *)
Lemma run_abnormal_exit_counterexample :
  let proc := mkProcess [Samples.too_few] 2 in
  let result :=
    run Samples.no_environ ":" (Samples.popen proc) None
      Samples.ignore_too_few false in
  wait proc ≠ 1 ∧ result.2 = 0 ∧ result.2 ≠ wait proc.
Proof. vm_compute. repeat split; discriminate. Qed.

(** C3, amended. When the subprocess exits with a code other than 1,
    [run] prints, after the output of the stream, the severe-error banner
    and then the last diagnostic it looked at, if there is one, as an
    unfiltered ['error'] without key, whatever the policy said about it;
    it returns the exit code of the subprocess when some line was counted
    as an error, and 0 when none was. *)
Theorem run_abnormal_exit
    environ pathsep Popen mypy_options options daemon_mode :
  let proc := spawn environ pathsep Popen mypy_options options daemon_mode in
  let st := fold_left (step options) (stdout proc) init_state in
  wait proc ≠ 1 →
  run environ pathsep Popen mypy_options options daemon_mode =
    (out st ++ Banner ::
       match last (omap (seen options) (stdout proc)) with
       | Some (filename, lineno, msg, _) =>
           [Report (mkReport filename lineno "error" msg false None)]
       | None => []
       end,
     if bool_decide (List.filter (counts_as_error options) (stdout proc) = [])
     then 0 else wait proc).
Proof.
  intros proc st Hrc.
  rewrite (surjective_pairing (run _ _ _ _ _ _)).
  rewrite run_value. fold proc. f_equal.
  unfold run, run_process, finish. fold proc. cbn [fst]. fold st.
  rewrite (bool_decide_eq_true_2 _ Hrc).
  unfold st at 2. rewrite fold_step_last_error. cbn [last_error init_state].
  by destruct (last (omap (seen options) (stdout proc))) as [[[[? ?] ?] ?]|].
Qed.

Lemma run_abnormal_exit_witness :
  run Samples.no_environ ":" (Samples.popen (mkProcess [Samples.too_few] 2))
      None Samples.ignore_too_few false
  = ([Banner;
      Report (mkReport "a.py" "1" "error" "Too few arguments for f" false None)],
     0).
Proof.
  apply (run_abnormal_exit Samples.no_environ ":"
           (Samples.popen (mkProcess [Samples.too_few] 2)) None
           Samples.ignore_too_few false).
  vm_compute. discriminate.
Defined.

(** C4. A configuration file whose override section [mypyrun-a*] sets
    [color]: the generator yields the global section, prints the
    violation and ends with [AttributeError] on
    [Options.PER_MODULE_OPTIONS]; neither the rest of that section nor the
    section [mypyrun-b*] after it is yielded. Without the offending key
    both override sections are yielded. *)
Theorem override_global_only_raises :
  Samples.extract Samples.override_sets_color
  = ([Config.Yield {["select" := Config.VSet {["no_attr"; "not_callable"]}]}
        None;
      Config.Stderr
        ("mypyrun.ini: [mypyrun-a*]: Per-module sections should only "
         +:+ "specify per-module flags (color)")],
     Config.Raised (Config.AttributeError "Options" "PER_MODULE_OPTIONS"))
  ∧ Samples.extract Samples.override_clean
    = ([Config.Yield {["select" := Config.VSet {["no_attr"; "not_callable"]}]}
          None;
        Config.Yield {["ignore" := Config.VSet {["no_attr"]}]} (Some "un-a*");
        Config.Yield {["ignore" := Config.VSet {["not_iterable"]}]}
          (Some "un-b*")],
       Config.Returned).
Proof. split; vm_compute; reflexivity. Qed.

(** C5. After a reported error line, an error line whose message matches
    no rule leaves the recorded diagnostic in place, and the note that
    follows it is printed under the key of the earlier error. *)
Theorem unclassified_error_keeps_match_state :
  let st := fold_left (step default_options)
              [Samples.too_few; Samples.unknown] init_state in
  seen default_options Samples.unknown
    = Some ("a.py", "2", "Unexpected keyword", None)
  ∧ matched_error st = Some (Some "error", "not_enough_arguments")
  ∧ emitted default_options st Samples.note
    = [Report (mkReport "a.py" "2" "note" "See the documentation" false
                 (Some "not_enough_arguments"))].
Proof. vm_compute. repeat split. Qed.

(** C6, as stated, fails: after an error line resolved to ['error'], the
    note that follows is printed with the status ['note'], not with the
    resolved status recorded for the error. *)
Lemma note_status_counterexample :
  let st := step default_options init_state Samples.too_few in
  matched_error st = Some (Some "error", "not_enough_arguments")
  ∧ emitted default_options st Samples.note
    = [Report (mkReport "a.py" "2" "note" "See the documentation" false
                 (Some "not_enough_arguments"))]
  ∧ ¬ (∃ call, emitted default_options st Samples.note = [Report call]
               ∧ Some (r_status call) = Some "error").
Proof.
  vm_compute. repeat split. intros (call & [= <-] & [=]).
Qed.

(** C6, amended. For every line the engine looks at whose status is
    ['note']: when a diagnostic is recorded, the note is printed with its
    own status ['note'], with the code recorded for that diagnostic as its
    key, and marked as filtered exactly when the recorded resolved status
    is none; when none is recorded nothing is printed. The recorded
    diagnostic and the counter stay as they are, and the note's own
    message plays no part. Consequently a note after an error line that
    was suppressed and not displayed prints nothing. *)
Theorem note_line_inherits options st line f l s m :
  parse_line line = Fields f l s m →
  is_excluded_path f options = false →
  Str.strip s = "note" →
  emitted options st line
    = match matched_error st with
      | Some (parent_status, parent_code) =>
          [Report (mkReport f l "note" (Str.strip m)
                     (negb (opt_truthy parent_status)) (Some parent_code))]
      | None => []
      end
  ∧ matched_error (step options st line) = matched_error st
  ∧ errors (step options st line) = errors st
  ∧ (∀ st0 line0 f0 l0 s0 m0 code,
       parse_line line0 = Fields f0 l0 s0 m0 →
       is_excluded_path f0 options = false →
       Str.strip s0 = "error" →
       get_error_code m0 = Some code →
       get_status options code = None →
       show_ignored options = false →
       emitted options st0 line0 = []
       ∧ emitted options (step options st0 line0) line = []).
Proof.
  intros Hp He Hs.
  assert (∀ st', emitted options st' line
    = match matched_error st' with
      | Some (parent_status, parent_code) =>
          [Report (mkReport f l "note" (Str.strip m)
                     (negb (opt_truthy parent_status)) (Some parent_code))]
      | None => []
      end) as Hem.
  { intros st'. destruct (matched_error st') as [[ps pc]|] eqn:Hm.
    - apply emitted_app. rewrite (step_note_line _ _ _ _ _ _ _ Hp He Hs).
      cbv zeta. by rewrite Hm.
    - apply emitted_nil. rewrite (step_note_line _ _ _ _ _ _ _ Hp He Hs).
      cbv zeta. by rewrite Hm. }
  split; [apply Hem|].
  rewrite (step_note_line _ _ _ _ _ _ _ Hp He Hs). cbv zeta.
  split; [|split].
  - by destruct (matched_error st) as [[ps pc]|].
  - by destruct (matched_error st) as [[ps pc]|].
  - intros st0 line0 f0 l0 s0 m0 code Hp0 He0 Hs0 Hc0 Hst Hshow.
    assert (step options st0 line0
            = mkState None (errors st0)
                (Some (f0, l0, Str.strip m0, Some code)) (out st0)) as Hstep.
    { rewrite (step_error_line _ _ _ _ _ _ _ _ Hp0 He0 Hc0 Hs0).
      cbv zeta. rewrite Hst, Hshow. reflexivity. }
    split.
    + apply emitted_nil. by rewrite Hstep.
    + rewrite Hem, Hstep. reflexivity.
Qed.

Lemma note_line_inherits_witness :
  emitted default_options (step default_options init_state Samples.too_few)
    Samples.note
  = [Report (mkReport "a.py" "2" "note" "See the documentation" false
               (Some "not_enough_arguments"))].
Proof.
  apply (note_line_inherits default_options
           (step default_options init_state Samples.too_few) Samples.note
           "a.py" "2" " note" (" See the documentation" +:+ Str.nl));
    vm_compute; reflexivity.
Defined.

(** C7, as stated, fails: a line of the expected shape with the status
    ['warning'] prints nothing; it is not passed through. *)
Lemma other_severity_counterexample :
  parse_line Samples.warning
    = Fields "a.py" "3" " warning" (" unused section" +:+ Str.nl)
  ∧ Str.strip " warning" = "warning"
  ∧ emitted default_options init_state Samples.warning = []
  ∧ emitted default_options init_state Samples.warning
    ≠ [Echo Samples.warning].
Proof. vm_compute. repeat split. discriminate. Qed.

(** C7, amended. A line of the expected shape whose status is neither
    ['error'] nor ['note'] is dropped: it prints nothing and changes
    neither the recorded diagnostic nor the counter. *)
Theorem other_severity_dropped options st line f l s m :
  parse_line line = Fields f l s m →
  Str.strip s ≠ "error" →
  Str.strip s ≠ "note" →
  emitted options st line = []
  ∧ matched_error (step options st line) = matched_error st
  ∧ errors (step options st line) = errors st.
Proof.
  intros Hp Hs Hn.
  destruct (is_excluded_path f options) eqn:He.
  - rewrite (emitted_nil options st line);
      rewrite (step_excluded _ _ _ _ _ _ _ Hp He); done.
  - rewrite (emitted_nil options st line);
      rewrite (step_other_line _ _ _ _ _ _ _ Hp He (or_intror Hs) Hn); done.
Qed.

Lemma other_severity_dropped_witness :
  emitted default_options init_state Samples.warning = []
  ∧ matched_error (step default_options init_state Samples.warning) = None
  ∧ errors (step default_options init_state Samples.warning) = 0.
Proof.
  apply (other_severity_dropped default_options init_state Samples.warning
           "a.py" "3" " warning" (" unused section" +:+ Str.nl));
    vm_compute; (reflexivity || discriminate).
Defined.

(** C8. When the subprocess exits with 1, [run] prints the output of the
    stream and nothing more, and returns the exit code of the subprocess
    if the running error counter is non-zero, else 0; so a run in which no
    line was counted as an error returns 0. *)
Theorem run_exit_code_found_issues
    environ pathsep Popen mypy_options options daemon_mode :
  let proc := spawn environ pathsep Popen mypy_options options daemon_mode in
  let st := fold_left (step options) (stdout proc) init_state in
  wait proc = 1 →
  run environ pathsep Popen mypy_options options daemon_mode
    = (out st, if bool_decide (errors st ≠ 0) then wait proc else 0)
  ∧ (errors st = 0 →
     (run environ pathsep Popen mypy_options options daemon_mode).2 = 0)
  ∧ (List.filter (counts_as_error options) (stdout proc) = [] → errors st = 0).
Proof.
  intros proc st Hrc.
  assert (run environ pathsep Popen mypy_options options daemon_mode
          = (out st, if bool_decide (errors st ≠ 0) then wait proc else 0))
    as Hrun.
  { unfold run, run_process, finish. fold proc. fold st.
    rewrite (bool_decide_eq_false_2 (wait proc ≠ 1)); [reflexivity|].
    intros H. by apply H. }
  split; [exact Hrun|]. split.
  - intros Hz. rewrite Hrun. cbn [snd].
    rewrite bool_decide_eq_false_2; [reflexivity|]. intros H. by apply H.
  - intros Hz. by apply fold_step_errors_zero.
Qed.

Lemma run_exit_code_found_issues_witness :
  run Samples.no_environ ":" (Samples.popen (mkProcess [Samples.too_few] 1))
      None Samples.ignore_too_few false = ([], 0).
Proof.
  apply (run_exit_code_found_issues Samples.no_environ ":"
           (Samples.popen (mkProcess [Samples.too_few] 1)) None
           Samples.ignore_too_few false).
  vm_compute. reflexivity.
Defined.

(** C9. One iteration adds one to the running error counter exactly when
    the line has one of the two shapes, its path is not excluded, its
    status is ['error'], its message has a recognized code and
    [get_status] resolves that code to ['error']; every other line leaves
    the counter as it is. So the counter after the loop is the number of
    such lines, and the value [run] returns depends on them and on the
    exit code of the subprocess only. *)
Theorem error_counter_counts_resolved_errors options :
  (∀ st line,
     errors (step options st line)
     = errors st + (if counts_as_error options line then 1 else 0))
  ∧ (∀ line,
       counts_as_error options line = true
       ↔ ∃ f l s m code,
           parse_line line = Fields f l s m
           ∧ is_excluded_path f options = false
           ∧ Str.strip s = "error"
           ∧ get_error_code m = Some code
           ∧ get_status options code = Some "error")
  ∧ (∀ lines,
       errors (fold_left (step options) lines init_state)
       = Z.of_nat (length (List.filter (counts_as_error options) lines)))
  ∧ (∀ environ pathsep Popen mypy_options daemon_mode,
       let proc :=
         spawn environ pathsep Popen mypy_options options daemon_mode in
       (run environ pathsep Popen mypy_options options daemon_mode).2
       = if bool_decide
              (List.filter (counts_as_error options) (stdout proc) = [])
         then 0 else wait proc).
Proof.
  split; [|split; [|split]].
  - apply step_errors.
  - apply counts_as_error_spec.
  - intros lines. rewrite fold_step_errors. cbn [errors init_state]. lia.
  - intros. apply run_value.
Qed.

(** C10. For every message, [get_error_code] returns none or the code of
    a rule of the table whose pattern is found in the message, and that
    code is a member of the known-code vocabulary; the table holds every
    rule of the source. So every key [run] prints, and every code it
    hands to the status policy, is a recognized code. *)
Theorem get_error_code_known :
  (∀ msg,
     match get_error_code msg with
     | Some code =>
         code ∈ FILTERS_SET
         ∧ ∃ pattern, (code, pattern) ∈ FILTERS ∧ search pattern msg = true
     | None => True
     end)
  ∧ FILTERS.*1 = _FILTERS.*1
  ∧ (∀ environ pathsep Popen mypy_options options daemon_mode,
       Forall known_key
         (run environ pathsep Popen mypy_options options daemon_mode).1).
Proof.
  split; [|split].
  - intros msg. destruct (get_error_code msg) as [code|] eqn:H; [|exact I].
    split.
    + exact (get_error_code_in_set msg code H).
    + exact (first_match_found FILTERS msg code H).
  - apply FILTERS_codes.
  - intros. unfold run, run_process, finish. cbn [fst].
    set (proc := spawn _ _ _ _ _ _).
    destruct (fold_step_known options (stdout proc) init_state) as [_ Ho].
    { split; [exact I|constructor]. }
    destruct (bool_decide (wait proc ≠ 1)); [|assumption].
    apply Forall_app. split; [assumption|].
    constructor; [exact I|].
    destruct (last_error _) as [[[[? ?] ?] ?]|]; [|constructor].
    apply Forall_singleton. exact I.
Qed.

(** * Further properties *)

(** ** Facts on strings *)

Lemma app_cons c s t : String c s +:+ t = String c (s +:+ t).
Proof. reflexivity. Qed.

Lemma app_nil_l_s t : EmptyString +:+ t = t.
Proof. reflexivity. Qed.

Lemma app_nil_r_s s : s +:+ EmptyString = s.
Proof. induction s as [|c s IH]; [reflexivity|]. by rewrite app_cons, IH. Qed.

Lemma app_assoc_s s t u : (s +:+ t) +:+ u = s +:+ t +:+ u.
Proof. induction s as [|c s IH]; [reflexivity|]. by rewrite !app_cons, IH. Qed.

Lemma app_length_s s t :
  String.length (s +:+ t) = (String.length s + String.length t)%nat.
Proof.
  induction s as [|c s IH]; [reflexivity|].
  rewrite app_cons. cbn [String.length]. by rewrite IH.
Qed.

Lemma app_shorter w s :
  (String.length s < String.length (w +:+ s))%nat ↔ w ≠ EmptyString.
Proof.
  rewrite app_length_s. destruct w; cbn [String.length]; split; intros; (done || lia).
Qed.

(** ** The matcher against the language *)

Lemma in_flat_map_elem {A B} (f : A → list B) l y :
  y ∈ flat_map f l ↔ ∃ x, x ∈ l ∧ y ∈ f x.
Proof.
  rewrite list_elem_of_In, in_flat_map.
  split; intros (x & H1 & H2); exists x; by rewrite ?list_elem_of_In in *.
Qed.

Lemma star_rests_sound step r :
  (∀ s s', s' ∈ step s → ∃ w, s = w +:+ s' ∧ lang r w) →
  ∀ n s s', s' ∈ Re.star_rests step n s →
    ∃ w, s = w +:+ s' ∧ lang (Re.Star r) w.
Proof.
  intros Hstep. induction n as [|n IH]; intros s s'; cbn [Re.star_rests].
  - intros ->%list_elem_of_singleton. exists EmptyString. split; [done|constructor].
  - intros [->|Hin]%elem_of_cons.
    { exists EmptyString. split; [done|constructor]. }
    apply in_flat_map_elem in Hin as (s1 & Hs1 & Hs').
    apply list_elem_of_filter in Hs1 as [Hlen Hs1].
    apply Hstep in Hs1 as (w1 & -> & Hw1).
    apply IH in Hs' as (w2 & -> & Hw2).
    exists (w1 +:+ w2). split; [by rewrite app_assoc_s|].
    apply lang_star_cons; [|done..].
    by apply app_shorter in Hlen.
Qed.

Lemma rests_sound r s s' :
  s' ∈ Re.rests r s → ∃ w, s = w +:+ s' ∧ lang r w.
Proof.
  revert s s'. induction r as [|c| |r1 IH1 r2 IH2|r IH]; intros s s';
    cbn [Re.rests].
  - intros ->%list_elem_of_singleton. exists EmptyString. split; [done|constructor].
  - destruct s as [|c' s]; [by intros ?%elem_of_nil|].
    destruct (decide (c' = c)) as [->|]; [|by intros ?%elem_of_nil].
    intros ->%list_elem_of_singleton.
    exists (String c EmptyString). split; [done|constructor].
  - destruct s as [|c' s]; [by intros ?%elem_of_nil|].
    destruct (decide (c' = "010"%char)); [by intros ?%elem_of_nil|].
    intros ->%list_elem_of_singleton.
    exists (String c' EmptyString). split; [done|by constructor].
  - intros (s1 & Hs1 & Hs')%in_flat_map_elem.
    apply IH1 in Hs1 as (w1 & -> & Hw1).
    apply IH2 in Hs' as (w2 & -> & Hw2).
    exists (w1 +:+ w2). split; [by rewrite app_assoc_s|by constructor].
  - by apply star_rests_sound.
Qed.

Lemma star_rests_mono step n s s' :
  s' ∈ Re.star_rests step n s → s' ∈ Re.star_rests step (S n) s.
Proof.
  revert s. induction n as [|n IH]; intros s.
  - cbn [Re.star_rests]. intros ->%list_elem_of_singleton. left.
  - intros H. change (Re.star_rests step (S n) s) with
      (s :: flat_map (Re.star_rests step n)
              (filter (λ s', (String.length s' < String.length s)%nat) (step s))) in H.
    change (Re.star_rests step (S (S n)) s) with
      (s :: flat_map (Re.star_rests step (S n))
              (filter (λ s', (String.length s' < String.length s)%nat) (step s))).
    apply elem_of_cons in H as [->|H]; [left|right].
    apply in_flat_map_elem in H as (s1 & Hs1 & Hs').
    apply in_flat_map_elem. exists s1. split; [done|by apply IH].
Qed.

Lemma star_rests_mono_le step n m s s' :
  (n ≤ m)%nat → s' ∈ Re.star_rests step n s → s' ∈ Re.star_rests step m s.
Proof.
  intros Hle. induction Hle as [|m Hle IH]; [done|].
  intros Hin. by apply star_rests_mono, IH.
Qed.

Lemma rests_complete r w :
  lang r w → ∀ s', s' ∈ Re.rests r (w +:+ s').
Proof.
  induction 1 as [|c|c Hc|r1 r2 w1 w2 _ IH1 _ IH2|r|r w1 w2 Hne _ IH1 _ IH2];
    intros s'.
  - cbn [Re.rests]. rewrite app_nil_l_s. left.
  - rewrite app_cons, app_nil_l_s. cbn [Re.rests].
    rewrite decide_True by done. left.
  - rewrite app_cons, app_nil_l_s. cbn [Re.rests].
    rewrite decide_False by done. left.
  - cbn [Re.rests]. apply in_flat_map_elem. exists (w2 +:+ s').
    split; [|apply IH2]. rewrite app_assoc_s. apply IH1.
  - cbn [Re.rests]. rewrite app_nil_l_s.
    destruct (String.length s'); cbn [Re.star_rests]; left.
  - cbn [Re.rests]. rewrite app_assoc_s.
    destruct (String.length (w1 +:+ w2 +:+ s')) as [|n] eqn:Hlen.
    { rewrite app_length_s in Hlen. destruct w1; [done|]. cbn in Hlen. lia. }
    cbn [Re.star_rests]. right. apply in_flat_map_elem.
    exists (w2 +:+ s'). split.
    + apply list_elem_of_filter. split; [|apply IH1].
      by apply app_shorter.
    + specialize (IH2 s'). cbn [Re.rests] in IH2.
      eapply star_rests_mono_le; [|exact IH2].
      rewrite app_length_s in Hlen. destruct w1; [done|].
      cbn [String.length] in Hlen. lia.
Qed.

Lemma rests_spec r s s' :
  s' ∈ Re.rests r s ↔ ∃ w, s = w +:+ s' ∧ lang r w.
Proof.
  split; [apply rests_sound|].
  intros (w & -> & Hw). by apply rests_complete.
Qed.

Lemma matches_at_spec r s :
  Re.matches_at r s = true ↔ ∃ w after, s = w +:+ after ∧ lang r w.
Proof.
  unfold Re.matches_at. split.
  - destruct (Re.rests r s) as [|s' l] eqn:Hr; [done|]. intros _.
    assert (s' ∈ Re.rests r s) as (w & -> & Hw)%rests_sound by (rewrite Hr; left).
    by exists w, s'.
  - intros (w & after & -> & Hw).
    pose proof (rests_complete r w Hw after) as Hin.
    destruct (Re.rests r (w +:+ after)); [by apply elem_of_nil in Hin|done].
Qed.

(** [search] succeeds exactly on the strings that hold a word of the
    language of the pattern. *)
Lemma re_search_spec r s :
  re_search r s = true ↔ ∃ before w after, s = before +:+ w +:+ after ∧ lang r w.
Proof.
  induction s as [|c s IH]; cbn [re_search].
  - rewrite orb_false_r, matches_at_spec. split.
    + intros (w & after & H & Hw). by exists EmptyString, w, after.
    + intros (before & w & after & H & Hw).
      destruct before; [|discriminate]. by exists w, after.
  - rewrite orb_true_iff, matches_at_spec, IH. split.
    + intros [(w & after & H & Hw)|(before & w & after & -> & Hw)].
      * by exists EmptyString, w, after.
      * by exists (String c before), w, after.
    + intros (before & w & after & H & Hw). destruct before as [|c' before].
      * left. by exists w, after.
      * right. rewrite app_cons in H. injection H as -> ->.
        by exists before, w, after.
Qed.

(** ** Patterns without operators *)

Lemma seq_of_rev l : Re.seq_of (rev l) = foldr Re.Cat Re.Eps l.
Proof.
  unfold Re.seq_of.
  rewrite <- (rev_involutive l) at 2.
  by rewrite (fold_left_rev_right Re.Cat).
Qed.

Lemma parse_plain_char c s cur stack :
  is_meta c = false →
  Re.parse (String c s) cur stack = Re.parse s (Re.Chr c :: cur) stack.
Proof.
  unfold is_meta. intros [Hm Hu]%orb_false_elim.
  apply bool_decide_eq_false_1 in Hm.
  cbn [Re.parse]. rewrite Hu.
  repeat (destruct (decide _) as [->|_];
          [exfalso; apply Hm; apply (bool_decide_unpack _); vm_compute; exact I|]).
  reflexivity.
Qed.

Lemma parse_plain s cur stack :
  plain s →
  Re.parse s cur stack
  = Re.parse EmptyString
      (rev (Re.Chr <$> list_ascii_of_string s) ++ cur) stack.
Proof.
  unfold plain. revert cur. induction s as [|c s IH]; intros cur Hp; [done|].
  cbn [list_ascii_of_string] in Hp. apply Forall_cons in Hp as [Hc Hp].
  rewrite (parse_plain_char _ _ _ _ Hc), (IH _ Hp).
  cbn [list_ascii_of_string fmap list_fmap rev].
  by rewrite <- app_assoc.
Qed.

Lemma parse_pattern_plain s :
  plain s → Re.parse_pattern s = Some (literal s).
Proof.
  intros Hp. unfold Re.parse_pattern. rewrite (parse_plain _ _ _ Hp).
  cbn [Re.parse]. rewrite app_nil_r, seq_of_rev. unfold literal.
  f_equal. generalize (list_ascii_of_string s).
  intros l. induction l as [|c l IH]; [done|]. cbn. by rewrite IH.
Qed.

Lemma lang_literal p w : lang (literal p) w ↔ w = p.
Proof.
  unfold literal. revert w. induction p as [|c p IH]; intros w;
    cbn [list_ascii_of_string foldr].
  - split; [by inversion 1|intros ->; constructor].
  - split.
    + inversion 1 as [| | |r1 r2 w1 w2 H1 H2| |]; subst.
      inversion H1; subst. apply IH in H2 as ->. reflexivity.
    + intros ->. change (String c p) with (String c EmptyString +:+ p).
      constructor; [constructor|by apply IH].
Qed.

(** A pattern without operators is found exactly in the strings that
    hold it. *)
Lemma re_compile_plain p :
  plain p →
  ∃ pattern, re_compile p = Some pattern
             ∧ ∀ s, search pattern s = true ↔ contains p s.
Proof.
  intros Hp. unfold re_compile. rewrite (parse_pattern_plain _ Hp).
  eexists. split; [reflexivity|]. intros s. cbn [search].
  rewrite re_search_spec. unfold contains. split.
  - intros (before & w & after & -> & ->%lang_literal). by exists before, after.
  - intros (before & after & ->). exists before, p, after.
    split; [done|by apply lang_literal].
Qed.

(** ** The compiled table against its source *)

Lemma FILTERS_compiled : compile_filters _FILTERS = Some FILTERS.
Proof.
  pose proof FILTERS_codes as H. unfold FILTERS in *.
  destruct (compile_filters _FILTERS) as [l|]; [done|].
  vm_compute in H. discriminate.
Qed.

Lemma FILTERS_rules :
  Forall2 (λ src rule,
             rule.1 = src.1
             ∧ ∃ r, Re.parse_pattern src.2 = Some r
                    ∧ rule.2 = mkPattern (re_search r))
          _FILTERS FILTERS.
Proof.
  pose proof FILTERS_compiled as H. unfold compile_filters in H.
  apply mapM_Some_1 in H. eapply Forall2_impl; [exact H|].
  intros [n s] [n' p] Hx. cbn [fst snd]. unfold re_compile in Hx.
  destruct (Re.parse_pattern s) as [r|] eqn:Hr; [|discriminate].
  injection Hx as <- <-. split; [reflexivity|]. exists r. split; reflexivity.
Qed.

(** ** First match wins *)

Lemma first_match_spec filters msg code :
  first_match filters msg = Some code
  ↔ ∃ before pattern after,
      filters = before ++ (code, pattern) :: after
      ∧ search pattern msg = true
      ∧ Forall (λ rule, search rule.2 msg = false) before.
Proof.
  induction filters as [|[c r] filters IH]; cbn [first_match].
  - split; [done|]. intros (before & ? & ? & H & _). destruct before; discriminate.
  - destruct (search r msg) eqn:Hr.
    + split.
      * intros [= ->]. by exists [], r, filters.
      * intros (before & p & after & H & Hp & Hb).
        destruct before as [|[c' r'] before]; [by injection H as -> _|].
        injection H as -> -> _. apply Forall_cons in Hb as [Hb _].
        cbn in Hb. congruence.
    + rewrite IH. split.
      * intros (before & p & after & -> & Hp & Hb).
        exists ((c, r) :: before), p, after. repeat split; [done|].
        by constructor.
      * intros (before & p & after & H & Hp & Hb).
        destruct before as [|[c' r'] before].
        { injection H as -> -> _. congruence. }
        injection H as -> -> ->. apply Forall_cons in Hb as [_ Hb].
        by exists before, p, after.
Qed.

Lemma first_match_none filters msg :
  first_match filters msg = None
  ↔ Forall (λ rule, search rule.2 msg = false) filters.
Proof.
  induction filters as [|[c r] filters IH]; cbn [first_match].
  - split; [constructor|done].
  - destruct (search r msg) eqn:Hr.
    + split; [done|]. intros [H _]%Forall_cons. cbn in H. congruence.
    + rewrite IH. split; [by constructor|by intros [_ H]%Forall_cons].
Qed.

(** ** Rules that an earlier rule covers *)

Lemma first_match_shadowed filters i j ci pi cj pj msg :
  NoDup (filters.*1) →
  filters !! i = Some (ci, pi) →
  filters !! j = Some (cj, pj) →
  (i < j)%nat →
  (search pj msg = true → search pi msg = true) →
  first_match filters msg ≠ Some cj.
Proof.
  intros Hnd Hi Hj Hlt Hcov (before & p & after & -> & Hp & Hb)%first_match_spec.
  assert (length before = j) as Hlen.
  { eapply (NoDup_lookup _ _ _ cj Hnd).
    - rewrite list_lookup_fmap, list_lookup_middle; done.
    - by rewrite list_lookup_fmap, Hj. }
  subst j. rewrite list_lookup_middle in Hj by done. injection Hj as ->.
  rewrite lookup_app_l in Hi by done.
  apply (Forall_lookup_1 _ _ _ _ Hb) in Hi. cbn in Hi.
  rewrite Hcov in Hi; done.
Qed.

Lemma lang_cat_mono a r r' :
  (∀ w, lang r w → lang r' w) → ∀ w, lang (Re.Cat a r) w → lang (Re.Cat a r') w.
Proof.
  intros Hr w H. inversion H; subst. constructor; [done|by apply Hr].
Qed.

Lemma lang_star_dot s :
  Forall (λ c, c ≠ "010"%char) (list_ascii_of_string s) → lang (Re.Star Re.Dot) s.
Proof.
  induction s as [|c s IH]; cbn [list_ascii_of_string]; [constructor|].
  intros [Hc Hs]%Forall_cons.
  change (String c s) with (String c EmptyString +:+ s).
  apply lang_star_cons; [done|by constructor|by apply IH].
Qed.

Lemma lang_chr_cat c r w :
  lang (Re.Cat (Re.Chr c) r) w → ∃ w', w = String c w' ∧ lang r w'.
Proof.
  inversion 1 as [| | |r1 r2 w1 w2 H1 H2| |]; subst.
  inversion H1; subst. by exists w2.
Qed.

Lemma FILTERS_NoDup : NoDup (FILTERS.*1).
Proof. rewrite FILTERS_codes. apply (bool_decide_unpack _). vm_compute. exact I. Qed.

Lemma FILTERS_lookup i code src :
  _FILTERS !! i = Some (code, src) →
  ∃ r, Re.parse_pattern src = Some r
       ∧ FILTERS !! i = Some (code, mkPattern (re_search r)).
Proof.
  intros Hi.
  destruct (Forall2_lookup_l _ _ _ _ _ FILTERS_rules Hi)
    as ([c p] & Hf & Hc & r & Hr & Hp).
  cbn [fst snd] in *. subst. exists r. split; assumption.
Qed.

(** X4. [get_error_code] never returns
    [incompatible_subclass_attr_none_case]: every message in which its
    pattern is found also holds the pattern of
    [incompatible_subclass_attr], which stands earlier in the table. *)
Theorem none_case_rule_never_wins msg :
  get_error_code msg ≠ Some "incompatible_subclass_attr_none_case".
Proof.
  edestruct (FILTERS_lookup 17 "incompatible_subclass_attr")
    as (r1 & Hr1 & Hf1); [vm_compute; reflexivity|].
  edestruct (FILTERS_lookup 21 "incompatible_subclass_attr_none_case")
    as (r2 & Hr2 & Hf2); [vm_compute; reflexivity|].
  unfold get_error_code.
  apply (first_match_shadowed _ _ _ _ _ _ _ _ FILTERS_NoDup Hf1 Hf2); [lia|].
  cbn [search]. rewrite !re_search_spec.
  intros (before & w & after & -> & Hw). exists before, w, after.
  split; [done|].
  vm_compute in Hr1, Hr2. injection Hr1 as <-. injection Hr2 as <-.
  revert w Hw. repeat apply lang_cat_mono.
  intros w Hw.
  apply lang_chr_cat in Hw as (w1 & -> & Hw).
  apply lang_chr_cat in Hw as (w2 & -> & Hw).
  apply lang_chr_cat in Hw as (w3 & -> & Hw).
  apply lang_chr_cat in Hw as (w4 & -> & Hw).
  change (String "N" (String "o" (String "n" (String "e" w4))))
    with ("None" +:+ w4).
  constructor; [|exact Hw].
  apply lang_star_dot. repeat constructor; discriminate.
Qed.

Lemma get_error_code_rule msg code i p :
  get_error_code msg = Some code →
  FILTERS !! i = Some (code, p) →
  search p msg = true.
Proof.
  unfold get_error_code.
  intros (before & p' & after & Hf & Hp & _)%first_match_spec Hi.
  assert (length before = i) as <-.
  { eapply (NoDup_lookup _ _ _ code FILTERS_NoDup).
    - rewrite Hf, list_lookup_fmap, list_lookup_middle; done.
    - by rewrite list_lookup_fmap, Hi. }
  rewrite Hf, list_lookup_middle in Hi by done. by injection Hi as <-.
Qed.

Lemma lang_cat_suffix t a r :
  (∀ w, lang r w → ∃ x, w = x +:+ t) →
  ∀ w, lang (Re.Cat a r) w → ∃ x, w = x +:+ t.
Proof.
  intros Hr w H. inversion H as [| | |r1 r2 w1 w2 H1 H2| |]; subst.
  apply Hr in H2 as (x & ->). exists (w1 +:+ x). by rewrite app_assoc_s.
Qed.

(** X5. The pattern of [invalid_type_arguments] is three groups in a row,
    not three alternatives: a message gets that code only if it holds the
    end of the second group directly followed by the third. *)
Theorem invalid_type_arguments_needs_all_three msg :
  get_error_code msg = Some "invalid_type_arguments" →
  contains "type argumentis not subscriptable" msg.
Proof.
  intros Hc.
  edestruct (FILTERS_lookup 4 "invalid_type_arguments")
    as (r & Hr & Hf); [vm_compute; reflexivity|].
  pose proof (get_error_code_rule _ _ _ _ Hc Hf) as Hs.
  cbn [search] in Hs. apply re_search_spec in Hs as (before & w & after & -> & Hw).
  vm_compute in Hr. injection Hr as <-.
  inversion Hw as [| | |g1 rest1 w1 w' Hw1 Hrest1| |]; subst.
  inversion Hrest1 as [| | |g2 rest2 w2 w'' Hw2 Hrest2| |]; subst.
  inversion Hrest2 as [| | |g3 rest3 w3 w''' Hw3 Hrest3| |]; subst.
  inversion Hrest3; subst.
  change (lang (literal "is not subscriptable") w3) in Hw3.
  apply lang_literal in Hw3 as ->.
  assert (∃ x, w2 = x +:+ "type argument") as (x & ->).
  { clear -Hw2. revert w2 Hw2. do 9 apply lang_cat_suffix. intros w2 Hw2.
    change (lang (literal " must have exactly one type argument") w2) in Hw2.
    apply lang_literal in Hw2 as ->.
    by exists " must have exactly one ". }
  exists (before +:+ w1 +:+ x), after.
  rewrite !app_assoc_s. reflexivity.
Qed.

Lemma invalid_type_arguments_needs_all_three_witness :
  contains "type argumentis not subscriptable"
    (Str.dq +:+ "List" +:+ Str.dq +:+ " expects 1 type argument"
     +:+ "Optional[...] must have exactly one type argument"
     +:+ "is not subscriptable").
Proof.
  apply invalid_type_arguments_needs_all_three. vm_compute. reflexivity.
Defined.

(** ** What a rule of the table matches *)

(** X2. Every entry of [_FILTERS] compiles, its rule stands at the same
    place of [FILTERS] under the same code, and the rule is found in a
    message exactly when some part of the message, anywhere in it, is a
    word of the language of the pattern. *)
Theorem FILTERS_rule_language i code src :
  _FILTERS !! i = Some (code, src) →
  ∃ r pattern,
    Re.parse_pattern src = Some r
    ∧ FILTERS !! i = Some (code, pattern)
    ∧ ∀ msg, search pattern msg = true
             ↔ ∃ before w after, msg = before +:+ w +:+ after ∧ lang r w.
Proof.
  intros (r & Hr & Hf)%FILTERS_lookup.
  exists r, (mkPattern (re_search r)). repeat split; [done..| |].
  - by intros ?%re_search_spec.
  - by intros ?%re_search_spec.
Qed.

Lemma FILTERS_rule_language_witness :
  ∃ r pattern,
    Re.parse_pattern "Argument .* has incompatible type" = Some r
    ∧ FILTERS !! 12%nat = Some ("incompatible_arg", pattern)
    ∧ ∀ msg, search pattern msg = true
             ↔ ∃ before w after, msg = before +:+ w +:+ after ∧ lang r w.
Proof.
  apply (FILTERS_rule_language 12 "incompatible_arg"
           "Argument .* has incompatible type").
  vm_compute. reflexivity.
Defined.

(** X3. A rule whose pattern holds no operator is found in a message
    exactly when the message holds the pattern as a substring. *)
Theorem FILTERS_plain_rule i code src :
  _FILTERS !! i = Some (code, src) →
  plain src →
  ∃ pattern,
    FILTERS !! i = Some (code, pattern)
    ∧ ∀ msg, search pattern msg = true ↔ contains src msg.
Proof.
  intros (r & Hr & Hf)%FILTERS_lookup Hp.
  rewrite (parse_pattern_plain _ Hp) in Hr. injection Hr as <-.
  eexists. split; [exact Hf|]. intros msg. cbn [search].
  rewrite re_search_spec. unfold contains. split.
  - intros (before & w & after & -> & ->%lang_literal). by exists before, after.
  - intros (before & after & ->). exists before, src, after.
    split; [done|by apply lang_literal].
Qed.

Lemma FILTERS_plain_rule_witness :
  ∃ pattern,
    FILTERS !! 24%nat = Some ("not_enough_arguments", pattern)
    ∧ ∀ msg, search pattern msg = true ↔ contains "Too few arguments" msg.
Proof.
  apply (FILTERS_plain_rule 24 "not_enough_arguments" "Too few arguments").
  - vm_compute. reflexivity.
  - unfold plain. apply (bool_decide_unpack _). vm_compute. exact I.
Defined.

(** X1. The first rule wins: [get_error_code] returns a code exactly when
    the table splits into rules that are not found in the message, a rule
    with that code that is found, and the rest; it returns none exactly
    when no rule of the table is found in the message. *)
Theorem get_error_code_first_match msg :
  (∀ code,
     get_error_code msg = Some code
     ↔ ∃ before pattern after,
         FILTERS = before ++ (code, pattern) :: after
         ∧ search pattern msg = true
         ∧ Forall (λ rule, search rule.2 msg = false) before)
  ∧ (get_error_code msg = None
     ↔ Forall (λ rule, search rule.2 msg = false) FILTERS).
Proof.
  split; [intros code; apply first_match_spec|apply first_match_none].
Qed.


(** ** Splitting a line *)

Lemma rev_app_spec a b : String.rev_app a b = String.rev a +:+ b.
Proof.
  revert b. induction a as [|c a IH]; intros b; [reflexivity|].
  unfold String.rev. cbn [String.rev_app]. rewrite !IH.
  by rewrite app_assoc_s.
Qed.

Lemma rev_cons c a : String.rev (String c a) = String.rev a +:+ String c EmptyString.
Proof. unfold String.rev at 1. cbn [String.rev_app]. apply rev_app_spec. Qed.

Lemma colons_cons c s :
  colons (String c s) = if decide (c = ":"%char) then S (colons s) else colons s.
Proof.
  unfold colons. cbn [list_ascii_of_string]. rewrite filter_cons.
  by destruct (decide (c = ":"%char)).
Qed.

Lemma colons_app a b : colons (a +:+ b) = (colons a + colons b)%nat.
Proof.
  induction a as [|c a IH]; [reflexivity|].
  rewrite app_cons, !colons_cons, IH. by destruct (decide _).
Qed.

Lemma colons_colon b : colons (":" +:+ b) = S (colons b).
Proof. by rewrite colons_app. Qed.

(** A string has no colon, or a first one. *)
Lemma first_colon s :
  colons s = 0%nat ∨ ∃ a b, s = a +:+ ":" +:+ b ∧ colons a = 0%nat.
Proof.
  induction s as [|c s IH]; [by left|].
  destruct (decide (c = ":"%char)) as [->|Hc].
  - right. by exists EmptyString, s.
  - rewrite colons_cons, decide_False by done.
    destruct IH as [?|(a & b & -> & Ha)]; [by left|].
    right. exists (String c a), b. split; [done|].
    by rewrite colons_cons, decide_False.
Qed.

Lemma split_go_no_colon n cur s :
  colons s = 0%nat → Str.split_go ":" n cur s = [String.rev cur +:+ s].
Proof.
  revert cur. induction s as [|c s IH]; intros cur H0; cbn [Str.split_go].
  - by rewrite app_nil_r_s.
  - rewrite colons_cons in H0.
    destruct (decide (c = ":"%char)) as [|Hc]; [done|].
    destruct n as [|n]; [by rewrite rev_app_spec|].
    rewrite (IH _ H0), rev_cons, app_assoc_s. done.
Qed.

Lemma split_go_colon n cur a b :
  colons a = 0%nat →
  Str.split_go ":" (S n) cur (a +:+ ":" +:+ b)
  = (String.rev cur +:+ a) :: Str.split_go ":" n EmptyString b.
Proof.
  revert cur. induction a as [|c a IH]; intros cur Ha.
  - change (EmptyString +:+ ":" +:+ b) with (String ":" b).
    cbn [Str.split_go]. destruct (decide (":"%char = ":"%char)); [|done].
    by rewrite app_nil_r_s.
  - rewrite colons_cons in Ha.
    destruct (decide (c = ":"%char)) as [|Hc]; [done|].
    rewrite app_cons. cbn [Str.split_go]. rewrite decide_False by done.
    rewrite (IH _ Ha), rev_cons, app_assoc_s. done.
Qed.

Lemma split_no_colon n s : colons s = 0%nat → Str.split ":" n s = [s].
Proof. apply split_go_no_colon. Qed.

Lemma split_colon n a b :
  colons a = 0%nat →
  Str.split ":" (S n) (a +:+ ":" +:+ b) = a :: Str.split ":" n b.
Proof. apply split_go_colon. Qed.

Lemma split_zero s : Str.split ":" 0 s = [s].
Proof. unfold Str.split. by destruct s. Qed.

(** The four fields of a line that has at least three colons. *)
Lemma parse_line_four f l s m :
  colons f = 0%nat → colons l = 0%nat → colons s = 0%nat →
  parse_line (f +:+ ":" +:+ l +:+ ":" +:+ s +:+ ":" +:+ m) = Fields f l s m.
Proof.
  intros Hf Hl Hs. unfold parse_line.
  by rewrite (split_colon _ _ _ Hf), (split_colon _ _ _ Hl),
    (split_colon _ _ _ Hs), split_zero.
Qed.

(** The three fields of a line that has two colons. *)
Lemma parse_line_three f s m :
  colons f = 0%nat → colons s = 0%nat → colons m = 0%nat →
  parse_line (f +:+ ":" +:+ s +:+ ":" +:+ m) = Fields f EmptyString s m.
Proof.
  intros Hf Hs Hm. unfold parse_line.
  rewrite !(split_colon _ _ _ Hf), !(split_colon _ _ _ Hs).
  by rewrite (split_no_colon _ _ Hm), split_zero.
Qed.

Lemma parse_line_few line : (colons line < 2)%nat → parse_line line = Malformed.
Proof.
  intros Hc. unfold parse_line.
  destruct (first_colon line) as [H0|(f & r & -> & Hf)].
  { by rewrite !(split_no_colon _ _ H0). }
  rewrite colons_app, colons_colon in Hc.
  assert (colons r = 0%nat) as Hr by lia.
  by rewrite !(split_colon _ _ _ Hf), !(split_no_colon _ _ Hr).
Qed.

Lemma parse_line_shape line :
  match parse_line line with
  | Malformed => (colons line < 2)%nat
  | Fields filename lineno status msg =>
      colons filename = 0%nat ∧ colons status = 0%nat
      ∧ ((3 ≤ colons line)%nat ∧ colons lineno = 0%nat
         ∧ line = filename +:+ ":" +:+ lineno +:+ ":" +:+ status +:+ ":" +:+ msg
         ∨ colons line = 2%nat ∧ lineno = EmptyString ∧ colons msg = 0%nat
           ∧ line = filename +:+ ":" +:+ status +:+ ":" +:+ msg)
  end.
Proof.
  destruct (first_colon line) as [H0|(f & r1 & -> & Hf)].
  { rewrite parse_line_few; lia. }
  destruct (first_colon r1) as [H1|(l & r2 & -> & Hl)].
  { rewrite parse_line_few; rewrite colons_app, colons_colon; lia. }
  destruct (first_colon r2) as [H2|(s & m & -> & Hs)].
  - rewrite (parse_line_three _ _ _ Hf Hl H2).
    repeat split; [done..|]. right.
    rewrite !colons_app. change (colons ":") with 1%nat.
    repeat split; [lia|done].
  - rewrite (parse_line_four _ _ _ _ Hf Hl Hs).
    repeat split; [done..|]. left.
    rewrite !colons_app. change (colons ":") with 1%nat.
    repeat split; [lia|done].
Qed.

(** X6. A line with fewer than two colons has neither shape. Any other
    line is its fields joined by colons: four fields, of which the first
    three hold no colon, when the line has three colons or more; three
    fields without colon and an empty line number when it has exactly
    two. *)
Theorem parse_line_fields line :
  match parse_line line with
  | Malformed => (colons line < 2)%nat
  | Fields filename lineno status msg =>
      colons filename = 0%nat ∧ colons status = 0%nat
      ∧ ((3 ≤ colons line)%nat ∧ colons lineno = 0%nat
         ∧ line = filename +:+ ":" +:+ lineno +:+ ":" +:+ status +:+ ":" +:+ msg
         ∨ colons line = 2%nat ∧ lineno = EmptyString ∧ colons msg = 0%nat
           ∧ line = filename +:+ ":" +:+ status +:+ ":" +:+ msg)
  end.
Proof. exact (parse_line_shape line). Qed.

(** X7. A line with fewer than two colons is printed as it is and changes
    neither the recorded diagnostic, the counter nor the last diagnostic
    seen; no line with two colons or more is printed as it is. *)
Theorem malformed_line_passes_through options st line :
  ((colons line < 2)%nat →
   step options st line
   = mkState (matched_error st) (errors st) (last_error st)
       (out st ++ [Echo line]))
  ∧ (emitted options st line = [Echo line] ↔ (colons line < 2)%nat).
Proof.
  split.
  { intros H. by apply step_malformed, parse_line_few. }
  split.
  - intros Hem. pose proof (parse_line_shape line) as Hp.
    destruct (parse_line line) as [|f l s m] eqn:Hpl; [done|]. exfalso.
    unfold emitted in Hem. revert Hem.
    destruct (is_excluded_path f options) eqn:He.
    { rewrite (step_excluded _ _ _ _ _ _ _ Hpl He), drop_all. discriminate. }
    destruct (decide (Str.strip s = "note")) as [Hn|Hn].
    { rewrite (step_note_line _ _ _ _ _ _ _ Hpl He Hn). cbv zeta.
      destruct (matched_error st) as [[? ?]|]; cbn [out];
        rewrite ?drop_app_length, ?drop_all; discriminate. }
    destruct (get_error_code m) as [code|] eqn:Hc.
    + destruct (decide (Str.strip s = "error")) as [Hs|Hs].
      * rewrite (step_error_line _ _ _ _ _ _ _ _ Hpl He Hc Hs). cbv zeta.
        destruct (show_ignored options || _); cbn [out];
          rewrite ?drop_app_length, ?drop_all; discriminate.
      * rewrite (step_other_line _ _ _ _ _ _ _ Hpl He (or_intror Hs) Hn).
        cbn [out]. rewrite drop_all. discriminate.
    + rewrite (step_other_line _ _ _ _ _ _ _ Hpl He (or_introl Hc) Hn).
      cbn [out]. rewrite drop_all. discriminate.
  - intros H. apply emitted_app.
    by rewrite (step_malformed _ _ _ (parse_line_few _ H)).
Qed.

Lemma malformed_line_passes_through_witness :
  step default_options init_state "Success: no issues found"
  = mkState None 0 None [Echo "Success: no issues found"].
Proof.
  apply (malformed_line_passes_through default_options init_state
           "Success: no issues found").
  vm_compute. lia.
Defined.

(** ** Excluded paths *)

Lemma step_excluded_line options st line :
  excluded_line options line = true → step options st line = st.
Proof.
  unfold excluded_line. destruct (parse_line line) as [|f l s m] eqn:Hp; [done|].
  intros He. by apply (step_excluded _ _ _ _ _ _ _ Hp He).
Qed.

Lemma fold_step_excluded options lines st :
  fold_left (step options) lines st
  = fold_left (step options)
      (List.filter (λ line, negb (excluded_line options line)) lines) st.
Proof.
  revert st. induction lines as [|line lines IH]; intros st; [done|].
  cbn [fold_left List.filter].
  destruct (excluded_line options line) eqn:He; cbn [negb].
  - by rewrite (step_excluded_line _ _ _ He).
  - cbn [fold_left]. apply IH.
Qed.

Lemma excluded_lines_invisible options lines returncode :
  run_process options (mkProcess lines returncode)
  = run_process options
      (mkProcess
         (List.filter (λ line, negb (excluded_line options line)) lines)
         returncode).
Proof. unfold run_process. cbn [stdout wait]. by rewrite fold_step_excluded. Qed.

(** ** What the loop prints *)

Lemma get_status_range options c :
  get_status options c = Some "error"
  ∨ get_status options c = Some "warning"
  ∨ get_status options c = None.
Proof.
  rewrite get_status_cases.
  repeat (destruct (decide _); [auto|]).
  destruct (_ || _); auto.
Qed.

(** One iteration appends what [emitted] says. *)
Lemma step_out options st line :
  out (step options st line) = out st ++ emitted options st line.
Proof.
  unfold emitted.
  step_line options st line; cbn [out]; cbv zeta;
    repeat match goal with
    | |- context [match ?x with _ => _ end] => destruct x
    | |- context [if ?x then _ else _] => destruct x
    end; cbn [out];
    rewrite ?drop_app_length, ?drop_all, ?app_nil_r; reflexivity.
Qed.

(** What one iteration appends and how it leaves the loop variables, case
    by case: nothing, the line itself, a note, or a diagnostic. *)
Lemma emitted_cases options st line :
  (emitted options st line = []
   ∧ errors (step options st line) = errors st
   ∧ (matched_error (step options st line) = matched_error st
      ∨ matched_error (step options st line) = None))
  ∨ (emitted options st line = [Echo line]
     ∧ errors (step options st line) = errors st
     ∧ matched_error (step options st line) = matched_error st)
  ∨ (∃ f l m ps pc,
       matched_error st = Some (ps, pc)
       ∧ emitted options st line
         = [Report (mkReport f l "note" m (negb (opt_truthy ps)) (Some pc))]
       ∧ matched_error (step options st line) = matched_error st
       ∧ errors (step options st line) = errors st)
  ∨ (∃ f l m code,
       let ns := get_status options code in
       (show_ignored options = true ∨ ns ≠ None)
       ∧ emitted options st line
         = [Report (mkReport f l (default "error" ns) m
                      (bool_decide (ns = None)) (Some code))]
       ∧ matched_error (step options st line) = Some (ns, code)
       ∧ errors (step options st line)
         = errors st + (if bool_decide (ns = Some "error") then 1 else 0)).
Proof.
  unfold emitted.
  step_line options st line; cbv zeta.
  - right; left. cbn [out errors matched_error].
    by rewrite drop_app_length.
  - left. rewrite drop_all. auto.
  - destruct (matched_error st) as [[ps pc]|] eqn:Hm;
      cbn [out errors matched_error].
    + right; right; left. exists f, l, (Str.strip m), ps, pc.
      by rewrite drop_app_length.
    + left. rewrite drop_all. auto.
  - destruct (get_status_range options code) as [Hns|[Hns|Hns]]; rewrite Hns;
      cbn [opt_truthy Str.truthy orb]; rewrite ?orb_true_r.
    + right; right; right. exists f, l, (Str.strip m), code. cbv zeta.
      rewrite Hns. cbn [out matched_error errors default from_option id negb].
      rewrite drop_app_length.
      split; [right; discriminate|]. repeat split; reflexivity.
    + right; right; right. exists f, l, (Str.strip m), code. cbv zeta.
      rewrite Hns. cbn [out matched_error errors default from_option id negb].
      rewrite drop_app_length.
      split; [right; discriminate|].
      change (bool_decide (Some "warning" = Some "error")) with false.
      repeat split; try reflexivity; lia.
    + rewrite orb_false_r. destruct (show_ignored options) eqn:Hsh.
      * right; right; right. exists f, l, (Str.strip m), code. cbv zeta.
        rewrite Hns. cbn [out matched_error errors default from_option id negb].
        rewrite drop_app_length.
        split; [by left|].
        change (bool_decide (None = Some "error")) with false.
        repeat split; try reflexivity; lia.
      * left. cbn [out errors matched_error]. rewrite drop_all.
        case_bool_decide; [discriminate|]. auto.
  - left. cbn [out errors matched_error]. rewrite drop_all. auto.
  - left. cbn [out errors matched_error]. rewrite drop_all. auto.
Qed.

(** ** Invariants of the loop *)

Lemma get_status_truthy options c :
  opt_truthy (get_status options c) = bool_decide (get_status options c ≠ None).
Proof. by destruct (get_status_range options c) as [-> | [-> | ->]]. Qed.

Lemma fold_step_status_known options lines st :
  Forall status_known (out st) →
  Forall status_known (out (fold_left (step options) lines st)).
Proof.
  revert st. induction lines as [|line lines IH]; intros st Hst; [done|].
  cbn [fold_left]. apply IH. rewrite step_out. apply Forall_app. split; [done|].
  destruct (emitted_cases options st line) as [H|[H|[H|H]]].
  - destruct H as [-> _]. constructor.
  - destruct H as [-> _]. by repeat constructor.
  - destruct H as (f & l & m & ps & pc & _ & -> & _).
    apply Forall_singleton. cbn. set_solver.
  - destruct H as (f & l & m & code & _ & -> & _).
    apply Forall_singleton. cbn.
    destruct (get_status_range options code) as [-> | [-> | ->]]; cbn; set_solver.
Qed.

Lemma fold_step_unfiltered options lines st :
  show_ignored options = false →
  (∀ ps pc, matched_error st = Some (ps, pc) → opt_truthy ps = true) →
  Forall unfiltered (out st) →
  Forall unfiltered (out (fold_left (step options) lines st)).
Proof.
  intros Hsh. revert st. induction lines as [|line lines IH]; intros st Hm Hst;
    [done|].
  cbn [fold_left].
  destruct (emitted_cases options st line) as [H|[H|[H|H]]].
  - destruct H as (Hem & _ & Hme). apply IH.
    + intros ps pc. by destruct Hme as [-> | ->]; [apply Hm|].
    + by rewrite step_out, Hem, app_nil_r.
  - destruct H as (Hem & _ & Hme). apply IH.
    + intros ps pc. rewrite Hme. apply Hm.
    + rewrite step_out, Hem. apply Forall_app. by repeat constructor.
  - destruct H as (f & l & m & ps & pc & Hps & Hem & Hme & _). apply IH.
    + intros ps' pc'. rewrite Hme. apply Hm.
    + rewrite step_out, Hem. apply Forall_app. split; [done|].
      apply Forall_singleton. cbn. by rewrite (Hm _ _ Hps).
  - destruct H as (f & l & m & code & Hshown & Hem & Hme & _).
    destruct Hshown as [?|Hns]; [congruence|]. apply IH.
    + intros ps' pc'. rewrite Hme. intros [= <- <-].
      rewrite get_status_truthy. by apply bool_decide_eq_true_2.
    + rewrite step_out, Hem. apply Forall_app. split; [done|].
      apply Forall_singleton. cbn. by apply bool_decide_eq_false_2.
Qed.

Lemma counted_report_status options f l m code :
  counted_report
    (Report (mkReport f l (default "error" (get_status options code)) m
               (bool_decide (get_status options code = None)) (Some code)))
  = bool_decide (get_status options code = Some "error").
Proof. by destruct (get_status_range options code) as [-> | [-> | ->]]. Qed.

Lemma fold_step_counted options lines st :
  errors (fold_left (step options) lines st)
    - Z.of_nat (length (List.filter counted_report
                          (out (fold_left (step options) lines st))))
  = errors st - Z.of_nat (length (List.filter counted_report (out st))).
Proof.
  revert st. induction lines as [|line lines IH]; intros st; [done|].
  cbn [fold_left]. rewrite IH, step_out, List.filter_app, length_app.
  destruct (emitted_cases options st line) as [H|[H|[H|H]]].
  - destruct H as (-> & -> & _). cbn [List.filter length]. lia.
  - destruct H as (-> & -> & _). cbn [List.filter length counted_report]. lia.
  - destruct H as (f & l & m & ps & pc & _ & -> & _ & ->).
    cbn [List.filter counted_report r_status r_is_filtered].
    rewrite (bool_decide_eq_false_2 ("note" = "error")) by discriminate.
    cbn [andb length]. lia.
  - destruct H as (f & l & m & code & _ & -> & _ & ->).
    cbn [List.filter]. rewrite counted_report_status.
    destruct (bool_decide (get_status options code = Some "error"));
      cbn [length]; lia.
Qed.

(** X8. Lines whose path matches an exclude pattern are invisible: [run]
    prints and returns the same as on the stream without them. *)
Theorem excluded_lines_invisible_run
    environ pathsep Popen mypy_options options daemon_mode :
  run environ pathsep Popen mypy_options options daemon_mode
  = run environ pathsep
      (λ args env,
         mkProcess
           (List.filter (λ line, negb (excluded_line options line))
              (stdout (Popen args env)))
           (wait (Popen args env)))
      mypy_options options daemon_mode.
Proof.
  unfold run, spawn.
  destruct (paths options) as [[|p ps]|]; cbn beta;
    (set (proc := Popen _ _)); destruct proc as [lines rc]; cbn [stdout wait];
    apply excluded_lines_invisible.
Qed.

(** X9. Every status [run] hands to [report] is a key of [COLORS], so
    the lookup [COLORS[status]] of the coloured branch never fails. *)
Theorem reported_status_has_colour
    environ pathsep Popen mypy_options options daemon_mode :
  Forall status_known
    (run environ pathsep Popen mypy_options options daemon_mode).1.
Proof.
  unfold run, run_process, finish. cbn [fst].
  set (proc := spawn _ _ _ _ _ _).
  pose proof (fold_step_status_known options (stdout proc) init_state) as Ho.
  specialize (Ho (Forall_nil_2 _)).
  destruct (bool_decide (wait proc ≠ 1)); [|assumption].
  apply Forall_app. split; [assumption|].
  constructor; [exact I|].
  destruct (last_error _) as [[[[? ?] ?] ?]|]; [|constructor].
  apply Forall_singleton. cbn. set_solver.
Qed.

(** X10. Without [show_ignored], no line [run] reports is marked as
    filtered: neither a diagnostic, nor a note, nor the line of the
    severe-error path. *)
Theorem nothing_filtered_without_show_ignored
    environ pathsep Popen mypy_options options daemon_mode :
  show_ignored options = false →
  Forall unfiltered
    (run environ pathsep Popen mypy_options options daemon_mode).1.
Proof.
  intros Hsh. unfold run, run_process, finish. cbn [fst].
  set (proc := spawn _ _ _ _ _ _).
  pose proof (fold_step_unfiltered options (stdout proc) init_state Hsh) as Ho.
  assert (Forall unfiltered (out (fold_left (step options) (stdout proc) init_state)))
    as Ho'.
  { apply Ho; [discriminate|constructor]. }
  destruct (bool_decide (wait proc ≠ 1)); [|assumption].
  apply Forall_app. split; [assumption|].
  constructor; [exact I|].
  destruct (last_error _) as [[[[? ?] ?] ?]|]; [|constructor].
  by apply Forall_singleton.
Qed.

Lemma nothing_filtered_without_show_ignored_witness :
  Forall unfiltered
    (run Samples.no_environ ":"
       (Samples.popen (mkProcess [Samples.too_few; Samples.note] 1))
       None Samples.ignore_too_few false).1.
Proof.
  apply (nothing_filtered_without_show_ignored Samples.no_environ ":"
           (Samples.popen (mkProcess [Samples.too_few; Samples.note] 1))
           None Samples.ignore_too_few false).
  reflexivity.
Defined.

(** X11. The running error counter is the number of lines the loop
    reported with status ['error'] and not marked as filtered; so [run]
    returns a non-zero value only if it printed such a line. *)
Theorem counter_counts_printed_errors options :
  (∀ lines,
     let st := fold_left (step options) lines init_state in
     errors st = Z.of_nat (length (List.filter counted_report (out st))))
  ∧ (∀ environ pathsep Popen mypy_options daemon_mode,
       let result :=
         run environ pathsep Popen mypy_options options daemon_mode in
       result.2 ≠ 0 →
       ∃ call, Report call ∈ result.1
               ∧ r_status call = "error" ∧ r_is_filtered call = false).
Proof.
  assert (∀ lines,
     let st := fold_left (step options) lines init_state in
     errors st = Z.of_nat (length (List.filter counted_report (out st)))) as H.
  { intros lines st.
    pose proof (fold_step_counted options lines init_state) as Hc.
    fold st in Hc. cbn [errors out init_state List.filter length] in Hc. lia. }
  split; [exact H|].
  intros environ pathsep Popen mypy_options daemon_mode result.
  unfold result, run, run_process, finish. cbn [fst snd].
  set (proc := spawn _ _ _ _ _ _).
  specialize (H (stdout proc)). cbv zeta in H.
  set (st := fold_left (step options) (stdout proc) init_state) in *.
  case_bool_decide as Herr; [|done]. intros _.
  destruct (List.filter counted_report (out st)) as [|o os] eqn:Hf.
  { cbn in H. done. }
  assert (o ∈ List.filter counted_report (out st)) as Hin by (rewrite Hf; left).
  apply list_elem_of_In, filter_In in Hin as [Hin Hcr].
  apply list_elem_of_In in Hin.
  destruct o as [|call|]; [done| |done].
  apply andb_prop in Hcr as [Hs Hfil].
  exists call. split; [|split].
  - destruct (bool_decide (wait proc ≠ 1)); [|done].
    apply elem_of_app. by left.
  - by apply bool_decide_eq_true_1 in Hs.
  - by apply negb_true_iff in Hfil.
Qed.



Import Config Cli.

(** ** The outcomes of the status policy *)

Lemma set_truthy_spec (X : gset string) : set_truthy X = true ↔ X ≠ ∅.
Proof. unfold set_truthy. apply bool_decide_eq_true. Qed.

Lemma set_truthy_false (X : gset string) : set_truthy X = false ↔ X = ∅.
Proof.
  unfold set_truthy. rewrite bool_decide_eq_false. split; [apply dec_stable|].
  intros -> H. by apply H.
Qed.

(** X13. The status of a code is 'warning' exactly when the code is in
    [warn] and not in [select]; the code is suppressed exactly when it is
    in neither, and either is in [ignore] or [ignore] is empty while
    [select] is not; there is no fourth outcome. *)
Theorem get_status_outcomes options c :
  (get_status options c = Some "warning"
   ↔ (c ∉ select options) ∧ c ∈ warn options)
  ∧ (get_status options c = None
     ↔ (c ∉ select options) ∧ (c ∉ warn options)
       ∧ (c ∈ ignore options ∨ ignore options = ∅ ∧ select options ≠ ∅))
  ∧ (get_status options c = Some "error"
     ∨ get_status options c = Some "warning"
     ∨ get_status options c = None).
Proof.
  split; [|split; [|apply get_status_range]]; rewrite get_status_cases.
  - destruct (decide (c ∈ select options)) as [Hs|Hs].
    { split; [discriminate|]. by intros [? _]. }
    destruct (decide (c ∈ warn options)) as [Hw|Hw]; [done|].
    split; [|by intros [_ ?]].
    destruct (decide (c ∈ ignore options)); [discriminate|].
    destruct (_ || _); discriminate.
  - destruct (decide (c ∈ select options)) as [Hs|Hs].
    { split; [discriminate|]. by intros [? _]. }
    destruct (decide (c ∈ warn options)) as [Hw|Hw].
    { split; [discriminate|]. by intros (_ & ? & _). }
    destruct (decide (c ∈ ignore options)) as [Hi|Hi].
    { split; [|done]. intros _. repeat split; [done..|]. by left. }
    destruct (set_truthy (ignore options)) eqn:Hti; cbn [orb].
    { apply set_truthy_spec in Hti. split; [discriminate|].
      intros (_ & _ & [?|[? _]]); done. }
    apply set_truthy_false in Hti.
    destruct (set_truthy (select options)) eqn:Hts; cbn [negb].
    + apply set_truthy_spec in Hts. split; [|done].
      intros _. repeat split; [done..|]. by right.
    + apply set_truthy_false in Hts. split; [discriminate|].
      intros (_ & _ & [?|[_ ?]]); done.
Qed.

(** ** The checks of [main] *)

Lemma _validate_spec (filters codes : gset string) :
  _validate filters codes = true ↔ filters ⊆ codes.
Proof.
  unfold _validate. rewrite negb_true_iff, set_truthy_false. split.
  - intros He x Hx. destruct (decide (x ∈ codes)) as [|Hn]; [done|].
    assert (x ∈ filters ∖ codes) as Hd by (apply elem_of_difference; done).
    rewrite He in Hd. by apply not_elem_of_empty in Hd.
  - intros Hsub. apply set_eq. intros x.
    rewrite elem_of_difference, elem_of_empty. split; [|done].
    intros [Hx Hn]. by apply Hn, Hsub.
Qed.

Lemma main_checks_spec options :
  (main_checks options = None
   ↔ select options ## ignore options
     ∧ select options ⊆ FILTERS_SET
     ∧ ignore options ⊆ FILTERS_SET
     ∧ warn options ⊆ FILTERS_SET)
  ∧ (main_checks options = None ∨ main_checks options = Some PARSING_FAIL).
Proof.
  unfold main_checks, get_error_codes.
  destruct (set_truthy (select options ∩ ignore options)) eqn:Ho.
  { apply set_truthy_spec in Ho. split; [|by right].
    split; [discriminate|]. intros (Hd & _). exfalso. apply Ho.
    by apply disjoint_intersection_L. }
  apply set_truthy_false in Ho.
  destruct (_validate (select options) FILTERS_SET) eqn:Hs; cbn [negb].
  2:{ split; [|by right]. split; [discriminate|]. intros (_ & H & _).
      apply _validate_spec in H. congruence. }
  destruct (_validate (ignore options) FILTERS_SET) eqn:Hi; cbn [negb].
  2:{ split; [|by right]. split; [discriminate|]. intros (_ & _ & H & _).
      apply _validate_spec in H. congruence. }
  destruct (_validate (warn options) FILTERS_SET) eqn:Hw; cbn [negb].
  2:{ split; [|by right]. split; [discriminate|]. intros (_ & _ & _ & H).
      apply _validate_spec in H. congruence. }
  assert (_validate ((FILTERS_SET ∖ ignore options) ∖ select options)
            FILTERS_SET = true) as ->.
  { apply _validate_spec. intros x [[Hx _]%elem_of_difference _]%elem_of_difference.
    exact Hx. }
  cbn [negb]. split; [|by left]. split; [|done]. intros _.
  apply _validate_spec in Hs, Hi, Hw.
  repeat split; [by apply disjoint_intersection_L|done..].
Qed.

Lemma _validate_message_spec (filters codes : gset string) :
  _validate_message filters codes = None ↔ _validate filters codes = true.
Proof.
  unfold _validate_message, _validate.
  rewrite negb_true_iff, set_truthy_false.
  destruct (merge_sort String.le (elements (filters ∖ codes))) as [|x l] eqn:Hs.
  - split; [intros _|done].
    apply leibniz_equiv, elements_empty_inv, Permutation_nil_r.
    by rewrite <- (merge_sort_Permutation String.le), Hs.
  - split; [done|]. intros He. rewrite He, elements_empty in Hs.
    discriminate.
Qed.

Lemma main_validation_spec options :
  main_validation options = None ↔ main_checks options = None.
Proof.
  unfold main_validation, main_checks.
  destruct (set_truthy (select options ∩ ignore options)); [done|].
  destruct (_validate (select options) get_error_codes) eqn:Hs.
  2:{ destruct (_validate_message (select options) get_error_codes) eqn:Hm;
        [done|]. apply _validate_message_spec in Hm. congruence. }
  apply _validate_message_spec in Hs. rewrite Hs. cbn [negb].
  destruct (_validate (ignore options) get_error_codes) eqn:Hi.
  2:{ destruct (_validate_message (ignore options) get_error_codes) eqn:Hm;
        [done|]. apply _validate_message_spec in Hm. congruence. }
  apply _validate_message_spec in Hi. rewrite Hi. cbn [negb].
  destruct (_validate (warn options) get_error_codes) eqn:Hw.
  2:{ destruct (_validate_message (warn options) get_error_codes) eqn:Hm;
        [done|]. apply _validate_message_spec in Hm. congruence. }
  apply _validate_message_spec in Hw. rewrite Hw. cbn [negb].
  set (unused := get_error_codes ∖ ignore options ∖ select options).
  clearbody unused. clear Hs Hi Hw.
  destruct (_validate unused get_error_codes) eqn:Hu.
  - apply _validate_message_spec in Hu. by rewrite Hu.
  - destruct (_validate_message unused get_error_codes) eqn:Hm; [done|].
    apply _validate_message_spec in Hm. congruence.
Qed.

(** X14. [main] passes its checks, printing nothing, exactly when
    [select] and [ignore] share no code and [select], [ignore] and [warn]
    hold codes of the table only; the last check, on the codes that are
    in neither [ignore] nor [select], never fails. *)
Theorem main_validation_passes options :
  (main_validation options = None
   ↔ select options ## ignore options
     ∧ select options ⊆ FILTERS_SET
     ∧ ignore options ⊆ FILTERS_SET
     ∧ warn options ⊆ FILTERS_SET)
  ∧ _validate_message
      ((get_error_codes ∖ ignore options) ∖ select options) get_error_codes
    = None.
Proof.
  split.
  - rewrite main_validation_spec. apply main_checks_spec.
  - apply _validate_message_spec, _validate_spec.
    intros x [[Hx _]%elem_of_difference _]%elem_of_difference. exact Hx.
Qed.

(** X15. After [--select-all] every line with a recognized code is an
    'error', whatever [warn] and [ignore] hold; and [main] stops at its
    checks if [ignore] holds anything at all. *)
Theorem select_all_effect options :
  (∀ msg code,
     get_error_code msg = Some code →
     get_status (select_all options) code = Some "error")
  ∧ (ignore options ≠ ∅ →
     ∃ text, main_validation (select_all options) = Some text).
Proof.
  split.
  - intros msg code Hc. apply get_error_code_in_set in Hc.
    rewrite get_status_cases. cbn [select_all select].
    by rewrite decide_True.
  - intros Hne.
    destruct (main_validation (select_all options)) as [text|] eqn:Hv;
      [by exists text|].
    exfalso. apply main_validation_spec, main_checks_spec in Hv.
    destruct Hv as (Hd & _ & Hi & _).
    unfold select_all, get_error_codes in *. cbn [select ignore] in *.
    apply Hne. apply set_eq. intros x. rewrite elem_of_empty. split; [|done].
    intros Hx. exact (Hd x (Hi x Hx) Hx).
Qed.

Lemma select_all_effect_witness :
  ∃ text, main_validation (select_all Samples.ignore_too_few) = Some text.
Proof.
  apply (select_all_effect Samples.ignore_too_few).
  apply (bool_decide_unpack _). vm_compute. exact I.
Defined.

(** ** Looking for a configuration file *)

Lemma find_config_none path_exists parser_read config_files parser :
  (∀ f, f ∈ config_files → path_exists f = false) →
  find_config path_exists parser_read config_files parser
  = ([Stdout "No config files found"], None).
Proof.
  induction config_files as [|f fs IH]; intros H; [done|].
  cbn [find_config]. rewrite (H f) by left. apply IH.
  intros g Hg. apply H. by right.
Qed.

(** X16. When none of the candidate files exists the configuration
    parser prints 'No config files found', yields nothing, and [apply]
    leaves the options as they are. *)
Theorem no_config_file
    path_exists expanduser parser_read glob_pattern filename options :
  (∀ f, path_exists f = false) →
  extract_updates path_exists expanduser parser_read glob_pattern
    filename options
  = ([Stdout "No config files found"], Returned)
  ∧ apply path_exists expanduser parser_read glob_pattern filename options
    = (options, Returned).
Proof.
  intros H.
  assert (extract_updates path_exists expanduser parser_read glob_pattern
            filename options
          = ([Stdout "No config files found"], Returned)) as He.
  { unfold extract_updates. by rewrite find_config_none. }
  split; [exact He|]. unfold apply. by rewrite He.
Qed.

Lemma no_config_file_witness :
  extract_updates (λ _, false) id (Samples.reads Samples.override_clean)
    Samples.no_glob None default_options
  = ([Stdout "No config files found"], Returned)
  ∧ apply (λ _, false) id (Samples.reads Samples.override_clean)
      Samples.no_glob None default_options
    = (default_options, Returned).
Proof.
  apply (no_config_file (λ _, false) id (Samples.reads Samples.override_clean)
           Samples.no_glob None default_options).
  reflexivity.
Defined.

(** X17. The file the configuration is read from is the first candidate
    that exists and is read without error: every candidate before it is
    missing or failed to parse, and nothing but the messages of these
    failures is written. *)
Theorem find_config_first
    path_exists parser_read config_files parser evs file_read parser' :
  find_config path_exists parser_read config_files parser
  = (evs, Some (file_read, parser')) →
  ∃ before after p,
    config_files = before ++ file_read :: after
    ∧ path_exists file_read = true
    ∧ parser_read p file_read = (parser', None)
    ∧ Forall (λ f, path_exists f = true
                   → ∃ q, (parser_read q f).2 ≠ None) before
    ∧ Forall (λ ev, ∃ msg, ev = Stderr msg) evs.
Proof.
  revert parser evs. induction config_files as [|f fs IH]; intros parser evs;
    cbn [find_config]; [discriminate|].
  destruct (path_exists f) eqn:Hex.
  - destruct (parser_read parser f) as [p' [err|]] eqn:Hread.
    + destruct (find_config path_exists parser_read fs p') as [evs' r] eqn:Hf.
      intros [= <- ->].
      destruct (IH _ _ Hf) as (before & after & p & -> & He & Hr & Hb & Hev).
      exists (f :: before), after, p. repeat split; [done..| |].
      * constructor; [|done]. intros _. exists parser. by rewrite Hread.
      * constructor; [by eexists|done].
    + intros [= <- <- <-]. exists [], fs, parser. by repeat split.
  - intros Hf.
    destruct (IH _ _ Hf) as (before & after & p & -> & He & Hr & Hb & Hev).
    exists (f :: before), after, p. repeat split; [done..| |done].
    constructor; [|done]. intros ?. congruence.
Qed.

Lemma find_config_first_witness :
  ∃ before after p,
    CONFIG_FILES = before ++ "mypy.ini" :: after
    ∧ bool_decide ("mypy.ini" ∈ ["mypyrun.ini"; "mypy.ini"]) = true
    ∧ (if decide ("mypy.ini" = "mypyrun.ini")
       then (p, Some "File contains no section headers.")
       else (Samples.override_clean, None))
      = (Samples.override_clean, None)
    ∧ Forall
        (λ f, bool_decide (f ∈ ["mypyrun.ini"; "mypy.ini"]) = true
              → ∃ q : config,
                  (if decide (f = "mypyrun.ini")
                   then (q, Some "File contains no section headers.")
                   else (Samples.override_clean, None)).2 ≠ None)
        before
    ∧ Forall (λ ev, ∃ msg, ev = Stderr msg)
        [Stderr "mypyrun.ini: File contains no section headers."].
Proof.
  apply (find_config_first
           (λ f, bool_decide (f ∈ ["mypyrun.ini"; "mypy.ini"]))
           (λ p f, if decide (f = "mypyrun.ini")
                   then (p, Some "File contains no section headers.")
                   else (Samples.override_clean, None))
           CONFIG_FILES []
           [Stderr "mypyrun.ini: File contains no section headers."]
           "mypy.ini" Samples.override_clean).
  reflexivity.
Defined.

(** ** Writing a dictionary into the options *)

Lemma getattr_setattr o k v :
  field_shape k v → getattr (setattr o k v) k = Some v.
Proof.
  unfold GLOBAL_ONLY_OPTIONS.
  destruct v; cbn [field_shape setattr]; [done|..].
  - intros [->|[->|[->|[]%elem_of_nil]%elem_of_cons]%elem_of_cons]%elem_of_cons;
      reflexivity.
  - intros [->|[->|[->|[]%elem_of_nil]%elem_of_cons]%elem_of_cons]%elem_of_cons;
      reflexivity.
  - intros ->. reflexivity.
  - intros ->. reflexivity.
Qed.

Lemma getattr_setattr_ne o k v k' :
  k' ≠ k → getattr (setattr o k v) k' = getattr o k'.
Proof.
  intros Hne. unfold setattr.
  destruct v; [done|..];
    repeat (destruct (decide (k = _)) as [->|?]; [|try done]);
    unfold getattr; cbn [select ignore warn exclude paths color
                          show_ignored show_error_keys];
    repeat (destruct (decide (k' = _)) as [->|?]; [done|]); try done.
Qed.

Lemma foldr_setattr_other o (l : list (string * value)) k :
  k ∉ l.*1 →
  getattr (foldr (λ '(k, v) o, setattr o k v) o l) k = getattr o k.
Proof.
  induction l as [|[k1 v1] l IH]; intros Hk; [done|].
  cbn [foldr]. cbn [fmap list_fmap fst] in Hk.
  apply not_elem_of_cons in Hk as [Hne Hk].
  rewrite getattr_setattr_ne by done. by apply IH.
Qed.

Lemma foldr_setattr_in o (l : list (string * value)) k v :
  NoDup (l.*1) → (k, v) ∈ l → field_shape k v →
  getattr (foldr (λ '(k, v) o, setattr o k v) o l) k = Some v.
Proof.
  induction l as [|[k1 v1] l IH]; intros Hnd Hin Hsh.
  { by apply elem_of_nil in Hin. }
  cbn [foldr]. cbn [fmap list_fmap fst] in Hnd.
  apply NoDup_cons in Hnd as [Hk1 Hnd].
  apply elem_of_cons in Hin as [[= <- <-]|Hin].
  - by apply getattr_setattr.
  - assert (k ≠ k1) as Hne.
    { intros ->. apply Hk1. apply list_elem_of_fmap. by exists (k1, v). }
    rewrite getattr_setattr_ne by done. by apply IH.
Qed.

(** X18. What [apply] does with one yielded dictionary: every field of
    the dictionary is written into the options and the other fields are
    kept, whatever the glob pattern that comes with the dictionary. *)
Theorem apply_event_writes options updates fpath k :
  map_Forall field_shape updates →
  getattr (apply_event options (Yield updates fpath)) k
  = match updates !! k with
    | Some v => Some v
    | None => getattr options k
    end.
Proof.
  intros Hsh. cbn [apply_event].
  destruct (updates !! k) as [v|] eqn:Hk.
  - apply foldr_setattr_in.
    + apply NoDup_fst_map_to_list.
    + by apply elem_of_map_to_list.
    + by apply (Hsh k v).
  - apply foldr_setattr_other. intros Hin.
    apply list_elem_of_fmap in Hin as ([k' v'] & -> & Hin).
    apply elem_of_map_to_list in Hin. cbn in Hk. congruence.
Qed.

Lemma apply_event_writes_witness :
  getattr
    (apply_event Samples.select_only
       (Yield {["ignore" := VSet {["no_attr"]}]} (Some "un-a*")))
    "ignore"
  = Some (VSet {["no_attr"]}).
Proof.
  rewrite (apply_event_writes Samples.select_only
             {["ignore" := VSet {["no_attr"]}]} (Some "un-a*") "ignore").
  - reflexivity.
  - apply map_Forall_singleton. cbn.
    apply (bool_decide_unpack _). vm_compute. exact I.
Defined.

(** ** Parsing a section *)

Lemma config_types_shape glob_pattern key raw v :
  config_types glob_pattern key raw = Some v → field_shape key v.
Proof.
  unfold config_types. case_bool_decide as Hk.
  { intros [= <-]. exact Hk. }
  destruct (decide (key = "paths")) as [->|]; [by intros [= <-]|].
  destruct (decide (key = "exclude")) as [->|]; [by intros [= <-]|].
  discriminate.
Qed.

(** Outside [config_types], a key is converted as a boolean exactly when
    it is one of the three flags, whatever the template holds. *)
Lemma _parse_section_go_cons glob_pattern prefix template key raw sec log results :
  _parse_section_go glob_pattern prefix template ((key, raw) :: sec) log results
  = match config_types glob_pattern key raw with
    | Some v =>
        _parse_section_go glob_pattern prefix template sec log
          (<[key := v]> results)
    | None =>
        if bool_decide (key ∈ GLOBAL_ONLY_OPTIONS) then
          match getboolean raw with
          | inr b =>
              _parse_section_go glob_pattern prefix template sec log
                (<[key := VBool b]> results)
          | inl err =>
              _parse_section_go glob_pattern prefix template sec
                ((prefix +:+ ": " +:+ key +:+ ": " +:+ err) :: log) results
          end
        else
          _parse_section_go glob_pattern prefix template sec
            ((prefix +:+ ": Unrecognized option: " +:+ key +:+ " = " +:+ raw)
               :: log) results
    end.
Proof.
  cbn [_parse_section_go].
  destruct (config_types glob_pattern key raw) as [v|] eqn:Hct; [done|].
  unfold config_types in Hct. case_bool_decide as Hk; [done|].
  destruct (decide (key = "paths")) as [->|Hp]; [done|].
  destruct (decide (key = "exclude")) as [->|He]; [done|].
  unfold getattr, GLOBAL_ONLY_OPTIONS.
  repeat (destruct (decide (key = _)) as [->|?];
          [first [ exfalso; apply Hk; apply (bool_decide_unpack _);
                   vm_compute; exact I
                 | congruence
                 | reflexivity ]|]).
  rewrite bool_decide_eq_false_2; [reflexivity|].
  intros Hin. repeat (apply elem_of_cons in Hin as [->|Hin]; [done|]).
  by apply elem_of_nil in Hin.
Qed.

Lemma _parse_section_go_spec glob_pattern prefix template sec log results :
  map_Forall field_shape results →
  map_Forall field_shape
    (_parse_section_go glob_pattern prefix template sec log results).2
  ∧ dom (_parse_section_go glob_pattern prefix template sec log results).2
    ⊆ dom results ∪ list_to_set (sec.*1)
  ∧ ∀ template',
      _parse_section_go glob_pattern prefix template' sec log results
      = _parse_section_go glob_pattern prefix template sec log results.
Proof.
  revert log results.
  induction sec as [|[key raw] sec IH]; intros log results Hsh.
  { cbn. repeat split; [done|apply union_subseteq_l]. }
  assert (∀ v, dom (<[key:=v]> results) ∪ list_to_set (sec.*1)
               ⊆ dom results ∪ list_to_set (((key, raw) :: sec).*1)) as Hdom.
  { intros v. rewrite dom_insert_L. cbn [fmap list_fmap fst].
    rewrite list_to_set_cons. intros x. rewrite !elem_of_union. tauto. }
  assert (dom results ∪ list_to_set (sec.*1)
          ⊆ dom results ∪ list_to_set (((key, raw) :: sec).*1)) as Hdom'.
  { cbn [fmap list_fmap fst]. rewrite list_to_set_cons. intros x.
    rewrite !elem_of_union. tauto. }
  assert (∀ log' results',
            map_Forall field_shape results' →
            dom results' ∪ list_to_set (sec.*1)
              ⊆ dom results ∪ list_to_set (((key, raw) :: sec).*1) →
            map_Forall field_shape
              (_parse_section_go glob_pattern prefix template sec log' results').2
            ∧ dom (_parse_section_go glob_pattern prefix template sec log' results').2
              ⊆ dom results ∪ list_to_set (((key, raw) :: sec).*1)
            ∧ ∀ template',
                _parse_section_go glob_pattern prefix template' sec log' results'
                = _parse_section_go glob_pattern prefix template sec log' results')
    as Hrec.
  { intros log' results' Hsh' Hd.
    destruct (IH log' results' Hsh') as (H1 & H2 & H3).
    repeat split; [done| |done]. by etrans. }
  rewrite (_parse_section_go_cons glob_pattern prefix template).
  destruct (config_types glob_pattern key raw) as [v|] eqn:Hct.
  - destruct (Hrec log (<[key:=v]> results)) as (H1 & H2 & H3);
      [|apply Hdom|].
    { apply map_Forall_insert_2; [|done]. by eapply config_types_shape. }
    repeat split; [done..|]. intros t'.
    by rewrite _parse_section_go_cons, Hct, H3.
  - case_bool_decide as Hg.
    + destruct (getboolean raw) as [err|b] eqn:Hb.
      * destruct (Hrec ((prefix +:+ ": " +:+ key +:+ ": " +:+ err) :: log) results)
          as (H1 & H2 & H3); [exact Hsh|exact Hdom'|].
        repeat split; [done..|]. intros t'.
        rewrite _parse_section_go_cons, Hct, bool_decide_eq_true_2 by done.
        by rewrite Hb, H3.
      * destruct (Hrec log (<[key:=VBool b]> results)) as (H1 & H2 & H3);
          [|apply Hdom|].
        { by apply map_Forall_insert_2. }
        repeat split; [done..|]. intros t'.
        rewrite _parse_section_go_cons, Hct, bool_decide_eq_true_2 by done.
        by rewrite Hb, H3.
    + destruct (Hrec ((prefix +:+ ": Unrecognized option: " +:+ key +:+ " = "
                       +:+ raw) :: log) results) as (H1 & H2 & H3);
        [exact Hsh|exact Hdom'|].
      repeat split; [done..|]. intros t'.
      rewrite _parse_section_go_cons, Hct, bool_decide_eq_false_2 by done.
      by rewrite H3.
Qed.

Lemma _parse_section_shape glob_pattern prefix template sec :
  map_Forall field_shape (_parse_section glob_pattern prefix template sec).2
  ∧ dom (_parse_section glob_pattern prefix template sec).2
    ⊆ list_to_set (sec.*1)
  ∧ Forall (λ ev, ∃ msg, ev = Stderr msg)
      (_parse_section glob_pattern prefix template sec).1
  ∧ ∀ template',
      _parse_section glob_pattern prefix template' sec
      = _parse_section glob_pattern prefix template sec.
Proof.
  unfold _parse_section.
  destruct (_parse_section_go_spec glob_pattern prefix template sec [] ∅)
    as (H1 & H2 & H3); [apply map_Forall_empty|].
  destruct (_parse_section_go glob_pattern prefix template sec [] ∅)
    as [log results] eqn:Hgo.
  cbn [fst snd] in *. repeat split; [done| | |].
  - rewrite dom_empty_L in H2. by rewrite (left_id_L ∅ (∪)) in H2.
  - apply Forall_fmap, Forall_forall. intros msg _. by exists msg.
  - intros t'. by rewrite H3.
Qed.

(** X19. For a section of ordinary keys, the dictionary [_parse_section]
    builds holds only keys of the section that are option names, each
    with a value of the shape of its field; it writes to standard error
    only; and what it builds and writes does not depend on the values the
    template holds. *)
Theorem _parse_section_result glob_pattern prefix template sec :
  ordinary_section sec →
  map_Forall field_shape (_parse_section glob_pattern prefix template sec).2
  ∧ dom (_parse_section glob_pattern prefix template sec).2
    ⊆ list_to_set (sec.*1)
  ∧ Forall (λ ev, ∃ msg, ev = Stderr msg)
      (_parse_section glob_pattern prefix template sec).1
  ∧ ∀ template',
      _parse_section glob_pattern prefix template' sec
      = _parse_section glob_pattern prefix template sec.
Proof. intros _. apply _parse_section_shape. Qed.

Lemma _parse_section_result_witness :
  let sec := [("select", "no_attr"); ("color", "maybe"); ("colour", "no")] in
  map_Forall field_shape
    (_parse_section Samples.no_glob "mypyrun.ini: [mypy]" default_options sec).2
  ∧ dom (_parse_section Samples.no_glob "mypyrun.ini: [mypy]" default_options
           sec).2
    ⊆ list_to_set (sec.*1)
  ∧ Forall (λ ev, ∃ msg, ev = Stderr msg)
      (_parse_section Samples.no_glob "mypyrun.ini: [mypy]" default_options
         sec).1
  ∧ ∀ template',
      _parse_section Samples.no_glob "mypyrun.ini: [mypy]" template' sec
      = _parse_section Samples.no_glob "mypyrun.ini: [mypy]" default_options
          sec.
Proof.
  apply (_parse_section_result Samples.no_glob "mypyrun.ini: [mypy]"
           default_options
           [("select", "no_attr"); ("color", "maybe"); ("colour", "no")]).
  repeat constructor.
Defined.

(** ** Override sections, one by one *)




(** ** Splitting a list of options *)

Lemma chars_app a b :
  list_ascii_of_string (a +:+ b)
  = list_ascii_of_string a ++ list_ascii_of_string b.
Proof.
  induction a as [|c a IH]; [reflexivity|].
  rewrite app_cons. cbn [list_ascii_of_string]. by rewrite IH.
Qed.

Lemma chars_rev c s :
  c ∈ list_ascii_of_string (String.rev s) ↔ c ∈ list_ascii_of_string s.
Proof.
  induction s as [|d s IH]; [reflexivity|].
  rewrite rev_cons, chars_app, elem_of_app, IH. cbn [list_ascii_of_string].
  rewrite !elem_of_cons, elem_of_nil. tauto.
Qed.

Lemma rev_app_s a b : String.rev (a +:+ b) = String.rev b +:+ String.rev a.
Proof.
  induction a as [|c a IH].
  - by rewrite app_nil_l_s, app_nil_r_s.
  - by rewrite app_cons, !rev_cons, IH, app_assoc_s.
Qed.

Lemma rev_rev_s s : String.rev (String.rev s) = s.
Proof.
  induction s as [|c s IH]; [reflexivity|].
  by rewrite rev_cons, rev_app_s, IH.
Qed.

Lemma lstrip_head s c s' : Str.lstrip s = String c s' → Str.is_space c = false.
Proof.
  induction s as [|d s IH]; [discriminate|].
  cbn [Str.lstrip]. destruct (Str.is_space d) eqn:Hd; [exact IH|].
  by intros [= <- _].
Qed.

Lemma lstrip_fixed c s : Str.is_space c = false → Str.lstrip (String c s) = String c s.
Proof. intros H. cbn [Str.lstrip]. by rewrite H. Qed.

Lemma lstrip_lstrip s : Str.lstrip (Str.lstrip s) = Str.lstrip s.
Proof.
  destruct (Str.lstrip s) as [|c s'] eqn:Hs; [reflexivity|].
  apply lstrip_fixed, (lstrip_head _ _ _ Hs).
Qed.

Lemma lstrip_suffix s : ∃ p, s = p +:+ Str.lstrip s.
Proof.
  induction s as [|c s [p Hp]]; [by exists EmptyString|].
  cbn [Str.lstrip]. destruct (Str.is_space c).
  - exists (String c p). by rewrite app_cons, <- Hp.
  - by exists EmptyString.
Qed.

(** [strip] has nothing left to remove from its own result. *)
Lemma strip_strip s : Str.strip (Str.strip s) = Str.strip s.
Proof.
  unfold Str.strip.
  set (t := Str.lstrip s).
  assert (∀ c t', t = String c t' → Str.is_space c = false) as Ht
    by (intros c t'; apply lstrip_head).
  clearbody t.
  destruct (lstrip_suffix (String.rev t)) as [p Hp].
  set (u := Str.lstrip (String.rev t)) in *.
  assert (Str.lstrip u = u) as Hu by apply lstrip_lstrip.
  clearbody u.
  assert (t = String.rev u +:+ String.rev p) as Ht'.
  { by rewrite <- rev_app_s, <- Hp, rev_rev_s. }
  assert (Str.lstrip (String.rev u) = String.rev u) as ->.
  { destruct (String.rev u) as [|c r] eqn:Hr; [reflexivity|].
    apply lstrip_fixed, (Ht c (r +:+ String.rev p)).
    by rewrite Ht', app_cons. }
  by rewrite rev_rev_s, Hu.
Qed.

Lemma lstrip_chars c s :
  c ∈ list_ascii_of_string (Str.lstrip s) → c ∈ list_ascii_of_string s.
Proof.
  destruct (lstrip_suffix s) as [p Hp]. intros Hc.
  rewrite Hp, chars_app. apply elem_of_app. by right.
Qed.

Lemma strip_chars c s :
  c ∈ list_ascii_of_string (Str.strip s) → c ∈ list_ascii_of_string s.
Proof.
  unfold Str.strip. rewrite chars_rev. intros Hc.
  apply lstrip_chars in Hc. rewrite chars_rev in Hc.
  by apply lstrip_chars.
Qed.

(** With as many cuts allowed as the string has characters, no piece
    keeps a separator. *)
Lemma split_go_free sep n cur s :
  (String.length s ≤ n)%nat →
  sep ∉ list_ascii_of_string cur →
  Forall (λ x, sep ∉ list_ascii_of_string x) (Str.split_go sep n cur s).
Proof.
  revert n cur. induction s as [|c s IH]; intros n cur Hn Hcur.
  - cbn [Str.split_go]. apply Forall_singleton.
    by rewrite chars_rev.
  - cbn [String.length] in Hn. destruct n as [|n]; [lia|].
    cbn [Str.split_go]. destruct (decide (c = sep)) as [->|Hc].
    + apply Forall_cons. split.
      * by rewrite chars_rev.
      * apply IH; [lia|]. cbn [list_ascii_of_string]. apply not_elem_of_nil.
    + apply IH; [lia|]. cbn [list_ascii_of_string].
      intros [->|?]%elem_of_cons; done.
Qed.

Lemma split_all_free sep s :
  Forall (λ x, sep ∉ list_ascii_of_string x) (Str.split_all sep s).
Proof.
  apply split_go_free; [done|]. cbn [list_ascii_of_string].
  apply not_elem_of_nil.
Qed.

Lemma split_go_whole sep n cur s :
  sep ∉ list_ascii_of_string s →
  Str.split_go sep n cur s = [String.rev cur +:+ s].
Proof.
  revert cur. induction s as [|c s IH]; intros cur Hs; cbn [Str.split_go].
  - by rewrite app_nil_r_s.
  - cbn [list_ascii_of_string] in Hs. apply not_elem_of_cons in Hs as [Hc Hs].
    destruct n as [|n]; [by rewrite rev_app_spec|].
    rewrite decide_False by done.
    rewrite (IH _ Hs), rev_cons, app_assoc_s. done.
Qed.

Lemma split_go_cut sep n cur a b :
  sep ∉ list_ascii_of_string a →
  Str.split_go sep (S n) cur (a +:+ String sep b)
  = (String.rev cur +:+ a) :: Str.split_go sep n EmptyString b.
Proof.
  revert cur. induction a as [|c a IH]; intros cur Ha.
  - rewrite app_nil_l_s. cbn [Str.split_go]. rewrite decide_True by done.
    by rewrite app_nil_r_s.
  - cbn [list_ascii_of_string] in Ha. apply not_elem_of_cons in Ha as [Hc Ha].
    rewrite app_cons. cbn [Str.split_go]. rewrite decide_False by done.
    rewrite (IH _ Ha), rev_cons, app_assoc_s. done.
Qed.

Lemma join_cons2 sep x y l :
  Str.join sep (x :: y :: l) = x +:+ sep +:+ Str.join sep (y :: l).
Proof. reflexivity. Qed.

(** [split] undoes [join] when no item holds the separator and enough
    cuts are allowed. *)
Lemma split_join sep n items :
  items ≠ [] →
  Forall (λ x, sep ∉ list_ascii_of_string x) items →
  (length items ≤ S n)%nat →
  Str.split sep n (Str.join (String sep EmptyString) items) = items.
Proof.
  unfold Str.split. revert n.
  induction items as [|x items IH]; intros n Hne Hfree Hn; [done|].
  apply Forall_cons in Hfree as [Hx Hfree].
  destruct items as [|y items].
  - cbn [Str.join]. by rewrite (split_go_whole _ _ _ _ Hx).
  - rewrite join_cons2. cbn [length] in Hn. destruct n as [|n]; [lia|].
    change (String sep EmptyString +:+ ?b) with (String sep b).
    rewrite (split_go_cut _ _ _ _ _ Hx). f_equal.
    apply IH; [done|done|cbn [length]; lia].
Qed.

Lemma join_length sep items :
  (length items ≤ S (String.length (Str.join (String sep EmptyString) items)))%nat.
Proof.
  induction items as [|x items IH]; [cbn; lia|].
  destruct items as [|y items]; [cbn [length]; lia|].
  rewrite join_cons2, !app_length_s. cbn [length String.length] in *. lia.
Qed.

Lemma join_truthy sep x items :
  x ≠ EmptyString → Str.truthy (Str.join sep (x :: items)) = true.
Proof.
  intros Hx. destruct x as [|c x]; [done|].
  destruct items; reflexivity.
Qed.

Lemma truthy_spec s : Str.truthy s = true ↔ s ≠ EmptyString.
Proof. by destruct s. Qed.

(** X21. Every item [_parse_multi_options] returns is not empty, has no
    white space left at either end and holds no comma. *)
Theorem _parse_multi_options_items options :
  Forall option_item (_parse_multi_options options).
Proof.
  unfold _parse_multi_options.
  destruct (Str.truthy options); [|constructor].
  apply Forall_forall. intros o [Ho Hin]%list_elem_of_filter.
  apply list_elem_of_fmap in Hin as (x & -> & Hx).
  repeat split.
  - by apply truthy_spec.
  - apply strip_strip.
  - intros Hc%strip_chars.
    pose proof (split_all_free ","%char options) as Hf.
    rewrite Forall_forall in Hf. exact (Hf x Hx Hc).
Qed.

(** X22. [_parse_multi_options] undoes a join with commas: a list of
    items of this kind, joined by commas, is split into the same list. *)
Theorem _parse_multi_options_join items :
  Forall option_item items →
  _parse_multi_options (Str.join "," items) = items.
Proof.
  intros Hitems. destruct items as [|x items]; [reflexivity|].
  unfold _parse_multi_options.
  rewrite join_truthy by (apply Forall_cons in Hitems as [[? _] _]; done).
  unfold Str.split_all. rewrite split_join.
  - induction Hitems as [|y l (Hy & Hs & _) _ IH]; [reflexivity|].
    rewrite fmap_cons, filter_cons, Hs.
    rewrite decide_True by (by apply truthy_spec). by rewrite IH.
  - done.
  - eapply Forall_impl; [exact Hitems|]. by intros y (_ & _ & ?).
  - apply (join_length ","%char).
Qed.

Lemma _parse_multi_options_join_witness :
  _parse_multi_options (Str.join "," ["no_attr"; "not_callable"])
  = ["no_attr"; "not_callable"].
Proof.
  apply _parse_multi_options_join.
  repeat constructor; try discriminate;
    apply (bool_decide_unpack _); vm_compute; exact I.
Defined.

(** ** The command-line layer *)

Lemma argparse_go_converted glob_pattern options key raw specified results :
  key = "select" ∨ key = "ignore" →
  argparse_updates_go glob_pattern options ((key, AStr raw) :: specified) results
  = argparse_updates_go glob_pattern options specified
      (<[key := Converted (VSet (list_to_set (_parse_multi_options raw)))]>
         results).
Proof. by intros [-> | ->]. Qed.

Lemma argparse_go_skipped glob_pattern options key v specified results :
  key = "list" ∨ key = "daemon" ∨ key = "select_all" →
  argparse_updates_go glob_pattern options ((key, v) :: specified) results
  = argparse_updates_go glob_pattern options specified results.
Proof. by intros [-> | [-> | ->]]. Qed.

Lemma argparse_go_passed glob_pattern options key v specified results :
  key = "color" ∨ key = "show_ignored" ∨ key = "show_error_keys" →
  argparse_updates_go glob_pattern options ((key, v) :: specified) results
  = argparse_updates_go glob_pattern options specified
      (<[key := Passed v]> results).
Proof. by intros [-> | [-> | ->]]. Qed.

Ltac argparse_go :=
  repeat first
    [ rewrite argparse_go_converted by (by (left + right))
    | rewrite argparse_go_skipped by (by (left + (right; left) + (right; right)))
    | rewrite argparse_go_passed by (by (left + (right; left) + (right; right))) ].

Lemma argparse_apply_layers glob_pattern args options :
  argparse_apply glob_pattern args options
  = inr (mkOptions
           (match a_select args with
            | Some raw => list_to_set (_parse_multi_options raw)
            | None => select options
            end)
           (match a_ignore args with
            | Some raw => list_to_set (_parse_multi_options raw)
            | None => ignore options
            end)
           (warn options) (exclude options) (paths options)
           (a_color args && color options)
           (a_show_ignored args || show_ignored options)
           (a_show_error_keys args || show_error_keys options)).
Proof.
  destruct options as [sel ign wrn exc pth col shi shk].
  destruct args as [al ad asel aign ac asi ask asa afl].
  unfold argparse_apply, argparse_updates.
  destruct al, ad, ac, asi, ask, asa, asel as [rs|], aign as [ri|];
    cbn [a_select a_ignore a_color a_show_ignored a_show_error_keys
         select ignore warn exclude paths color show_ignored show_error_keys
         andb orb];
    match goal with
    | |- context [_get_specified ?a] =>
        let l := eval vm_compute in (_get_specified a) in
        change (_get_specified a) with l
    end;
    argparse_go; cbn [argparse_updates_go];
    repeat match goal with
    | |- context [list_to_set ?l] =>
        let S := fresh "S" in set (S := list_to_set l); clearbody S
    end;
    vm_compute; reflexivity.
Qed.

(** X23. The command-line layer never raises. A [--select] or [--ignore]
    list given on the command line replaces the one the options hold and
    an absent one keeps it; [--no-color] can only switch colour off,
    [--show-ignored] and [--show-error-keys] can only switch on; [warn],
    [exclude] and [paths] are never touched. *)
Theorem argparse_apply_spec glob_pattern args options :
  argparse_apply glob_pattern args options
  = inr (mkOptions
           (match a_select args with
            | Some raw => list_to_set (_parse_multi_options raw)
            | None => select options
            end)
           (match a_ignore args with
            | Some raw => list_to_set (_parse_multi_options raw)
            | None => ignore options
            end)
           (warn options) (exclude options) (paths options)
           (a_color args && color options)
           (a_show_ignored args || show_ignored options)
           (a_show_error_keys args || show_error_keys options)).
Proof. apply argparse_apply_layers. Qed.

(** ** How [main] ends *)

Lemma per_module_only_outcome items e :
  per_module_only items = inl e →
  e = AttributeError "Options" "PER_MODULE_OPTIONS".
Proof. destruct items as [|[k v] items]; [discriminate|]. by intros [= <-]. Qed.

Lemma override_sections_outcome glob_pattern file_read options items :
  (override_sections glob_pattern file_read options items).2 = Returned
  ∨ (override_sections glob_pattern file_read options items).2
    = Raised (AttributeError "Options" "PER_MODULE_OPTIONS").
Proof.
  induction items as [|[name sec] items IH]; [by left|].
  cbn [override_sections].
  destruct (Str.startswith "mypyrun-" name); [|exact IH].
  destruct (_parse_section _ _ _ _) as [evs updates].
  destruct (global_only_keys updates) as [|k ks].
  - by destruct (override_sections glob_pattern file_read options items).
  - destruct (per_module_only (map_to_list updates)) as [e|m] eqn:Hp.
    + right. by rewrite (per_module_only_outcome _ _ Hp).
    + by destruct (override_sections glob_pattern file_read options items).
Qed.

Lemma extract_updates_outcome
    path_exists expanduser parser_read glob_pattern filename options :
  (extract_updates path_exists expanduser parser_read glob_pattern
     filename options).2 = Returned
  ∨ (extract_updates path_exists expanduser parser_read glob_pattern
       filename options).2
    = Raised (AttributeError "Options" "PER_MODULE_OPTIONS").
Proof.
  unfold extract_updates.
  destruct (find_config _ _ _ _) as [evs [[file_read parser]|]]; [|by left].
  pose proof (override_sections_outcome glob_pattern file_read options parser)
    as H.
  by destruct (override_sections glob_pattern file_read options parser).
Qed.


(** The options [main] checks: the defaults, then the configuration file,
    then the command line, then [--select-all]. *)
Lemma effective_options_inr
    path_exists expanduser parser_read glob_pattern args evs options :
  effective_options path_exists expanduser parser_read glob_pattern args
  = (evs, inr options) →
  ∃ layered,
    argparse_apply glob_pattern args (fold_left apply_event evs default_options)
    = inr layered
    ∧ options = if a_select_all args then select_all layered else layered.
Proof.
  unfold effective_options.
  destruct (extract_updates _ _ _ _ _ _) as [evs' r].
  destruct r as [|e]; [|by intros [= <-]].
  destruct (argparse_apply _ _ _) as [e|layered] eqn:Ha; intros [= <- <-].
  by exists layered.
Qed.

Lemma effective_options_inl
    path_exists expanduser parser_read glob_pattern args evs e :
  effective_options path_exists expanduser parser_read glob_pattern args
  = (evs, inl e) →
  e = AttributeError "Options" "PER_MODULE_OPTIONS".
Proof.
  unfold effective_options.
  pose proof (extract_updates_outcome path_exists expanduser parser_read
                glob_pattern None default_options) as Ho.
  destruct (extract_updates _ _ _ _ _ _) as [evs' r]. cbn [snd] in Ho.
  destruct r as [|e'].
  - rewrite argparse_apply_layers. discriminate.
  - destruct Ho as [|[= ->]]; [discriminate|]. by intros [= <- <-].
Qed.



(** X25. [main --list] prints every code of the table once, in sorted
    order, and exits with 0; it reads no configuration and starts no
    process. *)
Theorem main_list
    path_exists expanduser parser_read glob_pattern environ pathsep Popen args :
  a_list args = true →
  ∃ names,
    main path_exists expanduser parser_read glob_pattern environ pathsep
      Popen args
    = ((λ name, MOut ("  " +:+ name)) <$> names, SysExit 0)
    ∧ Sorted String.le names
    ∧ names ≡ₚ _FILTERS.*1.
Proof.
  intros Hl. unfold main. rewrite Hl.
  exists (merge_sort String.le (elements get_error_codes)).
  split; [reflexivity|]. split; [apply (Sorted_merge_sort _)|].
  rewrite merge_sort_Permutation. unfold get_error_codes, FILTERS_SET.
  rewrite elements_list_to_set by apply FILTERS_NoDup.
  by rewrite FILTERS_codes.
Qed.

Lemma main_list_witness :
  ∃ names,
    main (λ _, false) id (Samples.reads Samples.override_clean) Samples.no_glob
      Samples.no_environ ":" (Samples.popen (mkProcess [] 0))
      (mkNamespace true false None None true false false false [])
    = ((λ name, MOut ("  " +:+ name)) <$> names, SysExit 0)
    ∧ Sorted String.le names
    ∧ names ≡ₚ _FILTERS.*1.
Proof.
  apply (main_list (λ _, false) id (Samples.reads Samples.override_clean)
           Samples.no_glob Samples.no_environ ":"
           (Samples.popen (mkProcess [] 0))
           (mkNamespace true false None None true false false false [])).
  reflexivity.
Defined.

(** X26. Over a configuration of ordinary keys, a code given both to
    [--select] and to [--ignore] on the command line makes [main] exit
    with [PARSING_FAIL] before anything is run, unless the configuration
    parser has raised first. *)
Theorem main_rejects_overlap
    path_exists expanduser parser_read glob_pattern environ pathsep Popen
    args rs ri c :
  (∀ parser f, ordinary_config (parser_read parser f).1) →
  a_list args = false →
  a_select_all args = false →
  a_select args = Some rs →
  a_ignore args = Some ri →
  c ∈ _parse_multi_options rs →
  c ∈ _parse_multi_options ri →
  let result :=
    main path_exists expanduser parser_read glob_pattern environ pathsep
      Popen args in
  result.2 = Uncaught (AttributeError "Options" "PER_MODULE_OPTIONS")
  ∨ result.2 = SysExit PARSING_FAIL ∧ ∀ o, MRun o ∉ result.1.
Proof.
  intros _ Hl Hall Hs Hi Hcs Hci. unfold main. rewrite Hl.
  destruct (effective_options _ _ _ _ _) as [evs [e|options]] eqn:He.
  { left. cbn [snd]. by rewrite (effective_options_inl _ _ _ _ _ _ _ He). }
  right.
  apply effective_options_inr in He as (layered & Ha & ->).
  rewrite Hall. rewrite argparse_apply_layers, Hs, Hi in Ha.
  injection Ha as <-.
  destruct (main_validation _) as [msg|] eqn:Hv.
  - cbn [fst snd]. split; [done|]. intros o [Hin|Hin]%elem_of_app.
    + apply list_elem_of_fmap in Hin as (? & [=] & _).
    + apply list_elem_of_singleton in Hin. discriminate.
  - exfalso. apply main_validation_spec, main_checks_spec in Hv as (Hd & _).
    cbn [select ignore] in Hd.
    apply (Hd c); by apply elem_of_list_to_set.
Qed.

Lemma main_rejects_overlap_witness :
  let result :=
    main Samples.only_mypyrun_ini id (Samples.reads Samples.override_clean)
      Samples.no_glob Samples.no_environ ":" (Samples.popen (mkProcess [] 0))
      (mkNamespace false false (Some "no_attr") (Some "no_attr, not_callable")
         true false false false []) in
  result.2 = Uncaught (AttributeError "Options" "PER_MODULE_OPTIONS")
  ∨ result.2 = SysExit PARSING_FAIL ∧ ∀ o, MRun o ∉ result.1.
Proof.
  apply (main_rejects_overlap Samples.only_mypyrun_ini id
           (Samples.reads Samples.override_clean) Samples.no_glob
           Samples.no_environ ":" (Samples.popen (mkProcess [] 0))
           (mkNamespace false false (Some "no_attr")
              (Some "no_attr, not_callable") true false false false [])
           "no_attr" "no_attr, not_callable" "no_attr");
    try reflexivity;
    first [ intros parser f; repeat constructor
          | apply (bool_decide_unpack _); vm_compute; exact I ].
Defined.
